(** * PrivateVideoCall: the ledger contract and the browser call coordinator

    Two programs are embedded here.

    - [Ledger] follows [src/contracts/PrivateVideoCall.sol]: storage is a
      record of finite maps read with Solidity's zero default, every external
      function is a function from the message environment and the storage to
      either a new storage with the emitted events or a revert.
    - [Coordinator] follows the class [PrivateVideoCallApp] of [src/app.js]:
      the object's fields, the contract-event listeners, the click handlers
      and the continuations of its [async] methods, run one at a time as the
      browser event loop does. *)

From stdpp Require Import base decidable option list gmap strings pretty.
From Stdlib Require Import ZArith Lia Ascii.

Local Open Scope Z_scope.

(** ** The ledger contract *)

Module Ledger.

(** Addresses, 32-byte words and unsigned integers are read as integers. *)
Abbreviation address := Z.
Abbreviation bytes32 := Z.
Abbreviation uint256 := Z.

Definition max_uint256 : Z := 2 ^ 256 - 1.

(** Encrypted integers are handles owned by the FHE library.  A storage slot
    that was never written holds the null handle; [FHE.asEuint32] and
    [FHE.asEuint64] produce the trivial encryption of their argument. *)
Inductive euint32 := euint32_null | asEuint32 (v : Z).
Inductive euint64 := euint64_null | asEuint64 (v : Z).

Inductive handle := H32 (e : euint32) | H64 (e : euint64).

(** [FHE.allowThis] and [FHE.allow] record a grant in the access-control
    list of the FHE library. *)
Inductive Grant :=
| allowThis (h : handle)
| allow (h : handle) (who : address).

Record VideoCall := mkVideoCall {
  initiator : address;
  recipient : address;
  encryptedCallKey : euint64;
  encryptedSignalingData : euint32;
  isActive : bool;
  isConnected : bool;
  startTime : uint256;
  endTime : uint256;
  encryptedMetadata : euint32
}.

Record CallInvitation := mkCallInvitation {
  from : address;
  to : address;
  encryptedInviteKey : euint64;
  timestamp : uint256;
  isAccepted : bool;
  isDeclined : bool
}.

Record UserProfile := mkUserProfile {
  isRegistered : bool;
  encryptedStatus : euint32;
  encryptedPublicKey : euint64;
  blockedUsers : gmap address bool;
  trustedContacts : gmap address bool
}.

(** Solidity reads an absent mapping entry as the zero value of its type. *)
Definition zero_VideoCall : VideoCall :=
  mkVideoCall 0 0 euint64_null euint32_null false false 0 0 euint32_null.
Definition zero_CallInvitation : CallInvitation :=
  mkCallInvitation 0 0 euint64_null 0 false false.
Definition zero_UserProfile : UserProfile :=
  mkUserProfile false euint32_null euint64_null ∅ ∅.

Definition read {V} (zero : V) (m : gmap Z V) (k : Z) : V := default zero (m !! k).

Record State := mkState {
  owner : address;
  nextCallId : uint256;
  videoCalls : gmap Z VideoCall;
  callInvitations : gmap Z CallInvitation;
  userProfiles : gmap Z UserProfile;
  userCallHistory : gmap Z (list uint256);
  acl : list Grant
}.

Inductive Event :=
| UserRegistered (user : address)
| CallInvited (from to : address) (inviteId : bytes32)
| CallAccepted (from to : address) (callId : uint256)
| CallDeclined (from to : address) (inviteId : bytes32)
| CallStarted (callId : uint256) (initiator recipient : address)
| CallEnded (callId : uint256) (duration : uint256)
| SignalingDataUpdated (callId : uint256) (user : address)
| UserStatusUpdated (user : address)
| ContactAdded (user contact : address) (isTrusted : bool)
| UserBlocked (blocker blocked : address).

(** [msg.sender] and [block.timestamp] of the transaction being run. *)
Record Env := mkEnv {
  msg_sender : address;
  block_timestamp : uint256
}.

(** [keccak256(abi.encodePacked(sender, recipient, timestamp))]: the hash is
    a primitive of the platform, taken as given. *)
Class Hash := keccak256 : address -> address -> uint256 -> bytes32.

(** *** Reverting computations *)

Inductive Failure :=
| Error (reason : string)
| Panic (code : Z).

Inductive result (A : Type) :=
| Ok (a : A)
| Revert (f : Failure).
Arguments Ok {A} a.
Arguments Revert {A} f.

#[global] Instance result_bind : MBind result := fun A B k c =>
  match c with
  | Ok a => k a
  | Revert f => Revert f
  end.

Definition require (cond : bool) (reason : string) : result unit :=
  if cond then Ok tt else Revert (Error reason).

(** Checked arithmetic of Solidity 0.8: overflow and underflow panic. *)
Definition checked_add (a b : uint256) : result uint256 :=
  if decide (a + b <= max_uint256) then Ok (a + b) else Revert (Panic 17).

Definition checked_sub (a b : uint256) : result uint256 :=
  if decide (b <= a) then Ok (a - b) else Revert (Panic 17).

Definition Receipt : Type := State * list Event.

(** *** Storage reads and writes *)

Definition videoCall (s : State) (id : uint256) : VideoCall :=
  read zero_VideoCall (videoCalls s) id.
Definition callInvitation (s : State) (id : bytes32) : CallInvitation :=
  read zero_CallInvitation (callInvitations s) id.
Definition userProfile (s : State) (a : address) : UserProfile :=
  read zero_UserProfile (userProfiles s) a.

Definition set_videoCall (id : uint256) (c : VideoCall) (s : State) : State :=
  mkState (owner s) (nextCallId s) (<[id := c]> (videoCalls s))
          (callInvitations s) (userProfiles s) (userCallHistory s) (acl s).

Definition set_callInvitation (id : bytes32) (i : CallInvitation) (s : State) : State :=
  mkState (owner s) (nextCallId s) (videoCalls s)
          (<[id := i]> (callInvitations s)) (userProfiles s) (userCallHistory s) (acl s).

Definition set_userProfile (a : address) (p : UserProfile) (s : State) : State :=
  mkState (owner s) (nextCallId s) (videoCalls s)
          (callInvitations s) (<[a := p]> (userProfiles s)) (userCallHistory s) (acl s).

Definition set_nextCallId (n : uint256) (s : State) : State :=
  mkState (owner s) n (videoCalls s)
          (callInvitations s) (userProfiles s) (userCallHistory s) (acl s).

Definition push_history (a : address) (id : uint256) (s : State) : State :=
  mkState (owner s) (nextCallId s) (videoCalls s)
          (callInvitations s) (userProfiles s)
          (<[a := read [] (userCallHistory s) a ++ [id]]> (userCallHistory s)) (acl s).

Definition grant (gs : list Grant) (s : State) : State :=
  mkState (owner s) (nextCallId s) (videoCalls s)
          (callInvitations s) (userProfiles s) (userCallHistory s) (acl s ++ gs).

(** *** Modifiers *)

Definition onlyOwner (e : Env) (s : State) : result unit :=
  require (bool_decide (msg_sender e = owner s)) "Not authorized".

Definition onlyRegistered (e : Env) (s : State) : result unit :=
  require (isRegistered (userProfile s (msg_sender e))) "User not registered".

Definition callExists (callId : uint256) (s : State) : result unit :=
  require (bool_decide (callId < nextCallId s)) "Call does not exist".

Definition onlyCallParticipant (e : Env) (callId : uint256) (s : State) : result unit :=
  let call := videoCall s callId in
  require (bool_decide (msg_sender e = initiator call)
           || bool_decide (msg_sender e = recipient call))
          "Not a call participant".

(** *** Constructor and external functions *)

Definition constructor (e : Env) : State :=
  mkState (msg_sender e) 1 ∅ ∅ ∅ ∅ [].

Definition registerUser (e : Env) (_publicKey _initialStatus : Z) (s : State)
  : result Receipt :=
  let profile := userProfile s (msg_sender e) in
  require (negb (isRegistered profile)) "User already registered" ;;
  let encryptedPublicKey := asEuint64 _publicKey in
  let encryptedStatus := asEuint32 _initialStatus in
  let profile := mkUserProfile true encryptedStatus encryptedPublicKey
                               (blockedUsers profile) (trustedContacts profile) in
  let s := set_userProfile (msg_sender e) profile s in
  let s := grant [allowThis (H64 encryptedPublicKey);
                  allowThis (H32 encryptedStatus);
                  allow (H64 encryptedPublicKey) (msg_sender e);
                  allow (H32 encryptedStatus) (msg_sender e)] s in
  Ok (s, [UserRegistered (msg_sender e)]).

Definition updateUserStatus (e : Env) (_newStatus : Z) (s : State) : result Receipt :=
  onlyRegistered e s ;;
  let encryptedStatus := asEuint32 _newStatus in
  let profile := userProfile s (msg_sender e) in
  let profile := mkUserProfile (isRegistered profile) encryptedStatus
                               (encryptedPublicKey profile)
                               (blockedUsers profile) (trustedContacts profile) in
  let s := set_userProfile (msg_sender e) profile s in
  let s := grant [allowThis (H32 encryptedStatus);
                  allow (H32 encryptedStatus) (msg_sender e)] s in
  Ok (s, [UserStatusUpdated (msg_sender e)]).

Definition inviteToCall `{Hash} (e : Env) (_recipient : address) (_inviteKey : Z)
    (s : State) : result Receipt :=
  onlyRegistered e s ;;
  require (negb (bool_decide (_recipient = msg_sender e))) "Cannot invite yourself" ;;
  require (isRegistered (userProfile s _recipient)) "Recipient not registered" ;;
  require (negb (read false (blockedUsers (userProfile s _recipient)) (msg_sender e)))
          "You are blocked by this user" ;;
  let inviteId := keccak256 (msg_sender e) _recipient (block_timestamp e) in
  let encryptedInviteKey := asEuint64 _inviteKey in
  let s := set_callInvitation inviteId
             (mkCallInvitation (msg_sender e) _recipient encryptedInviteKey
                               (block_timestamp e) false false) s in
  let s := grant [allowThis (H64 encryptedInviteKey);
                  allow (H64 encryptedInviteKey) (msg_sender e);
                  allow (H64 encryptedInviteKey) _recipient] s in
  Ok (s, [CallInvited (msg_sender e) _recipient inviteId]).

Definition acceptCallInvitation (e : Env) (_inviteId : bytes32)
    (_callKey _signalingData : Z) (s : State) : result Receipt :=
  onlyRegistered e s ;;
  let invitation := callInvitation s _inviteId in
  require (bool_decide (to invitation = msg_sender e)) "Not your invitation" ;;
  require (negb (isAccepted invitation) && negb (isDeclined invitation))
          "Invitation already responded" ;;
  let invitation := mkCallInvitation (from invitation) (to invitation)
                      (encryptedInviteKey invitation) (timestamp invitation)
                      true (isDeclined invitation) in
  let s := set_callInvitation _inviteId invitation s in
  let encryptedCallKey := asEuint64 _callKey in
  let encryptedSignalingData := asEuint32 _signalingData in
  let callId := nextCallId s in
  next ← checked_add (nextCallId s) 1;
  let s := set_nextCallId next s in
  let s := set_videoCall callId
             (mkVideoCall (from invitation) (msg_sender e) encryptedCallKey
                          encryptedSignalingData true false (block_timestamp e) 0
                          (asEuint32 0)) s in
  let s := push_history (from invitation) callId s in
  let s := push_history (msg_sender e) callId s in
  let s := grant [allowThis (H64 encryptedCallKey);
                  allowThis (H32 encryptedSignalingData);
                  allow (H64 encryptedCallKey) (from invitation);
                  allow (H64 encryptedCallKey) (msg_sender e);
                  allow (H32 encryptedSignalingData) (from invitation);
                  allow (H32 encryptedSignalingData) (msg_sender e)] s in
  Ok (s, [CallAccepted (from invitation) (msg_sender e) callId]).

Definition declineCallInvitation (e : Env) (_inviteId : bytes32) (s : State)
  : result Receipt :=
  onlyRegistered e s ;;
  let invitation := callInvitation s _inviteId in
  require (bool_decide (to invitation = msg_sender e)) "Not your invitation" ;;
  require (negb (isAccepted invitation) && negb (isDeclined invitation))
          "Invitation already responded" ;;
  let invitation := mkCallInvitation (from invitation) (to invitation)
                      (encryptedInviteKey invitation) (timestamp invitation)
                      (isAccepted invitation) true in
  let s := set_callInvitation _inviteId invitation s in
  Ok (s, [CallDeclined (from invitation) (msg_sender e) _inviteId]).

Definition startVideoCall (e : Env) (_callId : uint256) (s : State) : result Receipt :=
  callExists _callId s ;;
  onlyCallParticipant e _callId s ;;
  let call := videoCall s _callId in
  require (isActive call && negb (isConnected call))
          "Call not ready or already connected" ;;
  let call := mkVideoCall (initiator call) (recipient call) (encryptedCallKey call)
                          (encryptedSignalingData call) (isActive call) true
                          (block_timestamp e) (endTime call) (encryptedMetadata call) in
  let s := set_videoCall _callId call s in
  Ok (s, [CallStarted _callId (initiator call) (recipient call)]).

Definition updateSignalingData (e : Env) (_callId : uint256) (_newSignalingData : Z)
    (s : State) : result Receipt :=
  callExists _callId s ;;
  onlyCallParticipant e _callId s ;;
  let call := videoCall s _callId in
  require (isActive call) "Call not active" ;;
  let encryptedSignalingData := asEuint32 _newSignalingData in
  let call := mkVideoCall (initiator call) (recipient call) (encryptedCallKey call)
                          encryptedSignalingData (isActive call) (isConnected call)
                          (startTime call) (endTime call) (encryptedMetadata call) in
  let s := set_videoCall _callId call s in
  let s := grant [allowThis (H32 encryptedSignalingData);
                  allow (H32 encryptedSignalingData) (initiator call);
                  allow (H32 encryptedSignalingData) (recipient call)] s in
  Ok (s, [SignalingDataUpdated _callId (msg_sender e)]).

Definition endVideoCall (e : Env) (_callId : uint256) (s : State) : result Receipt :=
  callExists _callId s ;;
  onlyCallParticipant e _callId s ;;
  let call := videoCall s _callId in
  require (isActive call) "Call already ended" ;;
  let call := mkVideoCall (initiator call) (recipient call) (encryptedCallKey call)
                          (encryptedSignalingData call) false (isConnected call)
                          (startTime call) (block_timestamp e) (encryptedMetadata call) in
  duration ← checked_sub (endTime call) (startTime call);
  let s := set_videoCall _callId call s in
  Ok (s, [CallEnded _callId duration]).

Definition addTrustedContact (e : Env) (_contact : address) (s : State) : result Receipt :=
  onlyRegistered e s ;;
  require (negb (bool_decide (_contact = msg_sender e))) "Cannot add yourself" ;;
  require (isRegistered (userProfile s _contact)) "Contact not registered" ;;
  let profile := userProfile s (msg_sender e) in
  let profile := mkUserProfile (isRegistered profile) (encryptedStatus profile)
                               (encryptedPublicKey profile) (blockedUsers profile)
                               (<[_contact := true]> (trustedContacts profile)) in
  Ok (set_userProfile (msg_sender e) profile s,
      [ContactAdded (msg_sender e) _contact true]).

Definition blockUser (e : Env) (_user : address) (s : State) : result Receipt :=
  onlyRegistered e s ;;
  require (negb (bool_decide (_user = msg_sender e))) "Cannot block yourself" ;;
  let profile := userProfile s (msg_sender e) in
  let profile := mkUserProfile (isRegistered profile) (encryptedStatus profile)
                               (encryptedPublicKey profile)
                               (<[_user := true]> (blockedUsers profile))
                               (trustedContacts profile) in
  Ok (set_userProfile (msg_sender e) profile s, [UserBlocked (msg_sender e) _user]).

Definition unblockUser (e : Env) (_user : address) (s : State) : result Receipt :=
  onlyRegistered e s ;;
  let profile := userProfile s (msg_sender e) in
  let profile := mkUserProfile (isRegistered profile) (encryptedStatus profile)
                               (encryptedPublicKey profile)
                               (<[_user := false]> (blockedUsers profile))
                               (trustedContacts profile) in
  Ok (set_userProfile (msg_sender e) profile s, []).

(** *** Views *)

Definition getInvitationInfo (_inviteId : bytes32) (s : State)
  : address * address * uint256 * bool * bool :=
  let invitation := callInvitation s _inviteId in
  (from invitation, to invitation, timestamp invitation,
   isAccepted invitation, isDeclined invitation).

Definition getCallInfo (_callId : uint256) (s : State)
  : result (address * address * bool * bool * uint256 * uint256) :=
  callExists _callId s ;;
  let call := videoCall s _callId in
  Ok (initiator call, recipient call, isActive call, isConnected call,
      startTime call, endTime call).

Definition isUserRegistered (_user : address) (s : State) : bool :=
  isRegistered (userProfile s _user).

(** *** Transactions

    A transaction is one external call in its environment.  A reverted
    transaction leaves the storage as it was and emits nothing. *)

Inductive Call :=
| call_registerUser (_publicKey _initialStatus : Z)
| call_updateUserStatus (_newStatus : Z)
| call_inviteToCall (_recipient : address) (_inviteKey : Z)
| call_acceptCallInvitation (_inviteId : bytes32) (_callKey _signalingData : Z)
| call_declineCallInvitation (_inviteId : bytes32)
| call_startVideoCall (_callId : uint256)
| call_updateSignalingData (_callId : uint256) (_newSignalingData : Z)
| call_endVideoCall (_callId : uint256)
| call_addTrustedContact (_contact : address)
| call_blockUser (_user : address)
| call_unblockUser (_user : address).

Record Tx := mkTx { tx_env : Env; tx_call : Call }.

Definition dispatch `{Hash} (tx : Tx) (s : State) : result Receipt :=
  let e := tx_env tx in
  match tx_call tx with
  | call_registerUser pk st => registerUser e pk st s
  | call_updateUserStatus st => updateUserStatus e st s
  | call_inviteToCall r k => inviteToCall e r k s
  | call_acceptCallInvitation i k d => acceptCallInvitation e i k d s
  | call_declineCallInvitation i => declineCallInvitation e i s
  | call_startVideoCall c => startVideoCall e c s
  | call_updateSignalingData c d => updateSignalingData e c d s
  | call_endVideoCall c => endVideoCall e c s
  | call_addTrustedContact a => addTrustedContact e a s
  | call_blockUser a => blockUser e a s
  | call_unblockUser a => unblockUser e a s
  end.

Definition succeeds {A} (r : result A) : bool :=
  match r with Ok _ => true | Revert _ => false end.

(** The chain: storage together with the log of every event emitted so far. *)
Definition apply_tx `{Hash} (chain : State * list Event) (tx : Tx) : State * list Event :=
  match dispatch tx chain.1 with
  | Ok (s', evs) => (s', chain.2 ++ evs)
  | Revert _ => chain
  end.

Definition run `{Hash} (chain : State * list Event) (txs : list Tx) : State * list Event :=
  foldl apply_tx chain txs.

Definition deploy (e : Env) : State * list Event := (constructor e, []).

(** *** Vocabulary of the properties *)

Definition fails {A} (r : result A) : Prop := exists f, r = Revert f.

Definition fails_with {A} (r : result A) (reason : string) : Prop :=
  r = Revert (Error reason).

(** The caller is the initiator or the recipient of call [c], which exists
    and is active. *)
Definition on_active_call (e : Env) (c : uint256) (s : State) : Prop :=
  c < nextCallId s
  /\ (msg_sender e = initiator (videoCall s c) \/ msg_sender e = recipient (videoCall s c))
  /\ isActive (videoCall s c) = true.

Definition call_operations (c : uint256) (d : Z) : list Call :=
  [call_startVideoCall c; call_updateSignalingData c d; call_endVideoCall c].

Definition responded (i : CallInvitation) : bool := isAccepted i || isDeclined i.

(** The transaction is an [inviteToCall] whose derived identifier is [id]. *)
Definition recreates `{Hash} (id : bytes32) (tx : Tx) : bool :=
  match tx_call tx with
  | call_inviteToCall r _ =>
      bool_decide (keccak256 (msg_sender (tx_env tx)) r (block_timestamp (tx_env tx)) = id)
  | _ => false
  end.

(** The call accepts or declines invitation [id]. *)
Definition answers (id : bytes32) (call : Call) : Prop :=
  (exists k d, call = call_acceptCallInvitation id k d)
  \/ call = call_declineCallInvitation id.

Definition is_CallStarted (c : uint256) (ev : Event) : bool :=
  match ev with
  | CallStarted c' _ _ => bool_decide (c' = c)
  | _ => false
  end.

(** How many [CallStarted] events of call [c] a log holds. *)
Definition started (c : uint256) (log : list Event) : nat :=
  length (List.filter (is_CallStarted c) log).

(** What every chain grown from the deployment satisfies: a connected call
    has an identifier below [nextCallId] and at most one [CallStarted]
    event; a call that is not connected has none. *)
Definition chain_inv (chain : State * list Event) : Prop :=
  forall c,
    (isConnected (videoCall chain.1 c) = true ->
       c < nextCallId chain.1 /\ (started c chain.2 <= 1)%nat)
    /\ (isConnected (videoCall chain.1 c) = false -> started c chain.2 = 0%nat).

(** *** A concrete chain

    A stand-in hash for running the contract on concrete transactions: the
    packed encoding itself (20-byte addresses, 32-byte timestamp). *)
Definition packed : Hash := fun a b t => (a * 2 ^ 160 + b) * 2 ^ 256 + t.

Definition alice : address := 10.
Definition bob : address := 20.
Definition carol : address := 30.

Definition deployer : Env := mkEnv 1 0.

Definition registrations : list Tx :=
  [mkTx (mkEnv alice 100) (call_registerUser 1 1);
   mkTx (mkEnv bob 100) (call_registerUser 2 1);
   mkTx (mkEnv carol 100) (call_registerUser 3 1)].

Definition invite_1 : bytes32 := packed alice bob 200.

Definition invite_tx : Tx := mkTx (mkEnv alice 200) (call_inviteToCall bob 5).
Definition accept_tx : Tx := mkTx (mkEnv bob 200) (call_acceptCallInvitation invite_1 6 7).
Definition decline_tx : Tx := mkTx (mkEnv bob 200) (call_declineCallInvitation invite_1).
Definition invite_again_tx : Tx := mkTx (mkEnv alice 200) (call_inviteToCall bob 8).
Definition start_tx : Tx := mkTx (mkEnv bob 300) (call_startVideoCall 1).

(** Alice, Bob and Carol register. *)
Definition registered_chain : State * list Event :=
  foldl (apply_tx (H := packed)) (deploy deployer) registrations.

(** Alice invites Bob. *)
Definition invited_chain : State * list Event :=
  apply_tx (H := packed) registered_chain invite_tx.

(** Bob accepts, which creates call 1. *)
Definition accepted_chain : State * list Event :=
  apply_tx (H := packed) invited_chain accept_tx.

(** Alice invites Bob once more in the same block. *)
Definition reinvited_chain : State * list Event :=
  apply_tx (H := packed) accepted_chain invite_again_tx.

(** The transactions up to Bob starting call 1. *)
Definition started_txs : list Tx :=
  registrations ++ [invite_tx; accept_tx; start_tx].

(** *** Further views *)

Definition getUserCallHistory (_user : address) (s : State) : list uint256 :=
  read [] (userCallHistory s) _user.

Definition isUserBlocked (_blocker _blocked : address) (s : State) : bool :=
  read false (blockedUsers (userProfile s _blocker)) _blocked.

Definition isTrustedContact (_user _contact : address) (s : State) : bool :=
  read false (trustedContacts (userProfile s _user)) _contact.

(** *** Further vocabulary *)


Definition is_registerUser (call : Call) : bool :=
  match call with
  | call_registerUser _ _ => true
  | _ => false
  end.

(** The identifiers carried by the [CallAccepted] events of a log, oldest
    first. *)
Definition accepted_ids (log : list Event) : list uint256 :=
  omap (fun ev => match ev with CallAccepted _ _ c => Some c | _ => None end) log.

Definition is_CallEnded (c : uint256) (ev : Event) : bool :=
  match ev with
  | CallEnded c' _ => bool_decide (c' = c)
  | _ => false
  end.

(** How many [CallEnded] events of call [c] a log holds. *)
Definition ended (c : uint256) (log : list Event) : nat :=
  length (List.filter (is_CallEnded c) log).

(** The identifiers [1, 2, ..., n - 1]. *)
Definition ids_below (n : uint256) : list uint256 :=
  map (fun k => Z.of_nat k) (seq 1 (Z.to_nat (n - 1))).

(** What the calls of a chain grown from the deployment satisfy: identifiers
    run from 1 up to [nextCallId]; outside that range nothing is stored; the
    participants of an active call are registered; the sender of an
    invitation is registered (in the record of an identifier that was never
    used, sender and recipient are both the zero address); a user's history
    lists exactly the calls the user takes part in. *)
Definition calls_inv (s : State) : Prop :=
  1 <= nextCallId s
  /\ (forall c, c < 1 \/ nextCallId s <= c -> videoCalls s !! c = None)
  /\ (forall c, isActive (videoCall s c) = true ->
        isRegistered (userProfile s (initiator (videoCall s c))) = true
        /\ isRegistered (userProfile s (recipient (videoCall s c))) = true)
  /\ (forall id, from (callInvitation s id) = to (callInvitation s id)
                  \/ isRegistered (userProfile s (from (callInvitation s id))) = true)
  /\ (forall u c, c ∈ getUserCallHistory u s <->
        1 <= c < nextCallId s
        /\ (u = initiator (videoCall s c) \/ u = recipient (videoCall s c))).

(** How the log of such a chain mirrors its storage. *)
Definition log_inv (chain : State * list Event) : Prop :=
  accepted_ids chain.2 = ids_below (nextCallId chain.1)
  /\ forall c,
       (ended c chain.2 <= 1)%nat
       /\ (isActive (videoCall chain.1 c) = true -> ended c chain.2 = 0%nat)
       /\ (nextCallId chain.1 <= c -> ended c chain.2 = 0%nat)
       /\ (ended c chain.2 = 0%nat -> 1 <= c < nextCallId chain.1 ->
           isActive (videoCall chain.1 c) = true).

(** The functions that carry the [onlyRegistered] modifier. *)
Definition guarded_by_onlyRegistered (call : Call) : bool :=
  match call with
  | call_updateUserStatus _ | call_inviteToCall _ _
  | call_acceptCallInvitation _ _ _ | call_declineCallInvitation _
  | call_addTrustedContact _ | call_blockUser _ | call_unblockUser _ => true
  | _ => false
  end.

(** *** More of the concrete chain *)

Definition register_alice_tx : Tx := mkTx (mkEnv alice 100) (call_registerUser 1 1).

(** Only Alice has registered. *)
Definition alice_registered_chain : State * list Event :=
  apply_tx (H := packed) (deploy deployer) register_alice_tx.

Definition block_tx : Tx := mkTx (mkEnv bob 150) (call_blockUser carol).
Definition trust_tx : Tx := mkTx (mkEnv alice 150) (call_addTrustedContact bob).
Definition end_tx : Tx := mkTx (mkEnv alice 400) (call_endVideoCall 1).

(** Bob has blocked Carol. *)
Definition blocked_chain : State * list Event :=
  apply_tx (H := packed) registered_chain block_tx.

(** Alice trusts Bob. *)
Definition trusted_chain : State * list Event :=
  apply_tx (H := packed) registered_chain trust_tx.

(** Bob has started call 1, and then Alice has ended it. *)
Definition started_chain : State * list Event :=
  apply_tx (H := packed) accepted_chain start_tx.

Definition ended_chain : State * list Event :=
  apply_tx (H := packed) started_chain end_tx.

(** The transactions up to Bob accepting Alice's invitation. *)
Definition accepted_txs : list Tx := registrations ++ [invite_tx; accept_tx].

End Ledger.

(** ** The call coordinator of the browser client

    The methods that draw the page, and those that neither read nor write the
    call fields (registration, status, contacts, call history), are left out;
    the page elements the others touch are taken to exist. *)

Module Coordinator.

(** *** JavaScript values *)

(** [String.prototype.toLowerCase] on the ASCII range, which is where the
    hexadecimal addresses passed by the contract listeners live. *)
Definition toLowerCase_ascii (c : ascii) : ascii :=
  let n := nat_of_ascii c in
  if ((65 <=? n) && (n <=? 90))%nat then ascii_of_nat (n + 32) else c.

Fixpoint toLowerCase (s : string) : string :=
  match s with
  | EmptyString => EmptyString
  | String c r => String (toLowerCase_ascii c) (toLowerCase r)
  end.

(** [callId.toString()] of a big number: its decimal numeral. *)
Definition toString (callId : N) : string := pretty callId.

(** Truthiness of a field holding [null] or a string: [!x] is true for
    [null] and for the empty string. *)
Definition truthy (x : option string) : bool :=
  match x with
  | Some (String _ _) => true
  | _ => false
  end.

(** *** The fields of [PrivateVideoCallApp] *)

(** A stream captured with [{video, audio: true}]: one audio and one video
    track, each with its [enabled] flag. *)
Record MediaStream := mkMediaStream {
  stream_id : positive;
  audio_enabled : bool;
  video_enabled : bool
}.

Record App := mkApp {
  userAddress : string;
  localStream : option MediaStream;
  remoteStream : option positive;
  peerConnection : option positive;
  currentCallId : option string;
  currentInviteId : option string;
  callStartTime : option N;
  durationInterval : option positive;
  selectedContact : option string
}.

(** *** What the coordinator asks of its collaborators *)

(** A contract method invoked through the signer, with the arguments as the
    code passes them ([null] is [None]). *)
Inductive ContractCall :=
| inviteToCall (recipient : option string) (inviteKey : N)
| acceptCallInvitation (inviteId : option string) (callKey signalingData : N)
| declineCallInvitation (inviteId : option string)
| startVideoCall_tx (callId : option string)
| updateSignalingData (callId : option string) (encryptedData : N)
| endVideoCall (callId : option string).

(** An [async] method suspended at an [await].  A transaction is awaited
    twice in a row ([await contract.f(..)], then [await tx.wait()]) with no
    statement in between, so one task stands for both: it is fulfilled when
    both are, rejected when either is. *)
Inductive Task :=
| await_inviteToCall (contact : option string)
| await_acceptCallInvitation
| await_declineCallInvitation
| await_getUserMedia
| await_startVideoCall
| await_endVideoCall
| await_updateSignalingData.

Inductive Outcome := Fulfilled | Rejected.

(** The object together with its surroundings: the contract calls issued so
    far (oldest first), the suspended methods, and the browser resources
    that are still held: captured streams whose tracks were not stopped,
    peer connections that were not closed, intervals that were not cleared.
    Browser resources are named by handles drawn from [nextHandle]; they are
    positive, as the identifiers returned by [setInterval] are, so a field
    holding one is truthy. *)
Record World := mkWorld {
  app : App;
  calls : list ContractCall;
  pending : list Task;
  liveStreams : list positive;
  openConnections : list positive;
  runningTimers : list positive;
  nextHandle : positive
}.

Definition with_app (f : App -> App) (w : World) : World :=
  mkWorld (f (app w)) (calls w) (pending w) (liveStreams w)
          (openConnections w) (runningTimers w) (nextHandle w).

Definition set_localStream (v : option MediaStream) (a : App) : App :=
  mkApp (userAddress a) v (remoteStream a) (peerConnection a) (currentCallId a)
        (currentInviteId a) (callStartTime a) (durationInterval a) (selectedContact a).
Definition set_remoteStream (v : option positive) (a : App) : App :=
  mkApp (userAddress a) (localStream a) v (peerConnection a) (currentCallId a)
        (currentInviteId a) (callStartTime a) (durationInterval a) (selectedContact a).
Definition set_peerConnection (v : option positive) (a : App) : App :=
  mkApp (userAddress a) (localStream a) (remoteStream a) v (currentCallId a)
        (currentInviteId a) (callStartTime a) (durationInterval a) (selectedContact a).
Definition set_currentCallId (v : option string) (a : App) : App :=
  mkApp (userAddress a) (localStream a) (remoteStream a) (peerConnection a) v
        (currentInviteId a) (callStartTime a) (durationInterval a) (selectedContact a).
Definition set_currentInviteId (v : option string) (a : App) : App :=
  mkApp (userAddress a) (localStream a) (remoteStream a) (peerConnection a)
        (currentCallId a) v (callStartTime a) (durationInterval a) (selectedContact a).
Definition set_callStartTime (v : option N) (a : App) : App :=
  mkApp (userAddress a) (localStream a) (remoteStream a) (peerConnection a)
        (currentCallId a) (currentInviteId a) v (durationInterval a) (selectedContact a).
Definition set_durationInterval (v : option positive) (a : App) : App :=
  mkApp (userAddress a) (localStream a) (remoteStream a) (peerConnection a)
        (currentCallId a) (currentInviteId a) (callStartTime a) v (selectedContact a).
Definition set_selectedContact (v : option string) (a : App) : App :=
  mkApp (userAddress a) (localStream a) (remoteStream a) (peerConnection a)
        (currentCallId a) (currentInviteId a) (callStartTime a) (durationInterval a) v.

(** [this.contract.f(args)] followed by [await]: the call is issued and the
    method is suspended. *)
Definition invoke (c : ContractCall) (t : Task) (w : World) : World :=
  mkWorld (app w) (calls w ++ [c]) (pending w ++ [t]) (liveStreams w)
          (openConnections w) (runningTimers w) (nextHandle w).

Definition suspend (t : Task) (w : World) : World :=
  mkWorld (app w) (calls w) (pending w ++ [t]) (liveStreams w)
          (openConnections w) (runningTimers w) (nextHandle w).

Definition remove_handle (h : positive) (l : list positive) : list positive :=
  filter (fun x => x ≠ h) l.

(** *** Methods *)

(** The constructor, followed by a [connectWallet] that obtained the
    signer's address (without it no listener is registered at all). *)
Definition constructor (address : string) : World :=
  mkWorld (mkApp address None None None None None None None None)
          [] [] [] [] [] 1%positive.

Definition showIncomingCall (from inviteId : string) (w : World) : World :=
  with_app (set_currentInviteId (Some inviteId)) w.

Definition hideIncomingCall (w : World) : World :=
  with_app (set_currentInviteId None) w.

Definition cleanup (w : World) : World :=
  (* Stop media streams *)
  let w :=
    match localStream (app w) with
    | Some s =>
        mkWorld (set_localStream None (app w)) (calls w) (pending w)
                (remove_handle (stream_id s) (liveStreams w))
                (openConnections w) (runningTimers w) (nextHandle w)
    | None => w
    end in
  (* Close peer connection *)
  let w :=
    match peerConnection (app w) with
    | Some c =>
        mkWorld (set_peerConnection None (app w)) (calls w) (pending w)
                (liveStreams w) (remove_handle c (openConnections w))
                (runningTimers w) (nextHandle w)
    | None => w
    end in
  (* Clear timers *)
  let w :=
    match durationInterval (app w) with
    | Some t =>
        mkWorld (set_durationInterval None (app w)) (calls w) (pending w)
                (liveStreams w) (openConnections w)
                (remove_handle t (runningTimers w)) (nextHandle w)
    | None => w
    end in
  (* Reset call state *)
  with_app (fun a => set_callStartTime None (set_currentCallId None a)) w.

Definition startCallTimer (w : World) : World :=
  let t := nextHandle w in
  mkWorld (set_durationInterval (Some t) (app w)) (calls w) (pending w)
          (liveStreams w) (openConnections w) (runningTimers w ++ [t]) (Pos.succ t).

(** [startVideoCall] up to its first [await]. *)
Definition startVideoCall (w : World) : World :=
  if negb (truthy (currentCallId (app w))) then w
  else suspend await_getUserMedia w.

(** [startMediaCapture] once [getUserMedia] has delivered a stream. *)
Definition startMediaCapture_resume (w : World) : World :=
  let h := nextHandle w in
  mkWorld (set_localStream (Some (mkMediaStream h true true)) (app w))
          (calls w) (pending w) (liveStreams w ++ [h])
          (openConnections w) (runningTimers w) (Pos.succ h).

Definition initializeWebRTC (w : World) : World :=
  let c := nextHandle w in
  mkWorld (set_peerConnection (Some c) (app w)) (calls w) (pending w)
          (liveStreams w) (openConnections w ++ [c]) (runningTimers w) (Pos.succ c).

(** [startVideoCall] after media capture: the rest of the [try] block up to
    the transaction, or the [catch] that only logs. *)
Definition startVideoCall_resume (o : Outcome) (w : World) : World :=
  match o with
  | Fulfilled =>
      let w := startMediaCapture_resume w in
      let w := initializeWebRTC w in
      invoke (startVideoCall_tx (currentCallId (app w))) await_startVideoCall w
  | Rejected => w
  end.

Definition handleCallAccepted (callId : N) (w : World) : World :=
  let w := with_app (set_currentCallId (Some (toString callId))) w in
  startVideoCall w.

Definition handleCallStarted (callId now : N) (w : World) : World :=
  let w := with_app (fun a => set_callStartTime (Some now)
                                (set_currentCallId (Some (toString callId)) a)) w in
  startCallTimer w.

(** [loadCallHistory] only queries the contract and redraws the history. *)
Definition handleCallEnded (duration : N) (w : World) : World :=
  cleanup w.

Definition initiateCall (inviteKey : N) (w : World) : World :=
  let selected := selectedContact (app w) in
  if negb (truthy selected) then w
  else invoke (inviteToCall selected inviteKey) (await_inviteToCall selected) w.

Definition acceptInvite (callKey signalingData : N) (w : World) : World :=
  if negb (truthy (currentInviteId (app w))) then w
  else invoke (acceptCallInvitation (currentInviteId (app w)) callKey signalingData)
              await_acceptCallInvitation w.

Definition declineInvite (w : World) : World :=
  if negb (truthy (currentInviteId (app w))) then w
  else invoke (declineCallInvitation (currentInviteId (app w)))
              await_declineCallInvitation w.

Definition endCall (w : World) : World :=
  if negb (truthy (currentCallId (app w))) then w
  else invoke (endVideoCall (currentCallId (app w))) await_endVideoCall w.

Definition sendSignalingData (encryptedData : N) (w : World) : World :=
  if negb (truthy (currentCallId (app w))) then w
  else invoke (updateSignalingData (currentCallId (app w)) encryptedData)
              await_updateSignalingData w.

Definition toggleMute (w : World) : World :=
  match localStream (app w) with
  | Some s =>
      with_app (set_localStream
                  (Some (mkMediaStream (stream_id s) (negb (audio_enabled s))
                                       (video_enabled s)))) w
  | None => w
  end.

Definition toggleVideo (w : World) : World :=
  match localStream (app w) with
  | Some s =>
      with_app (set_localStream
                  (Some (mkMediaStream (stream_id s) (audio_enabled s)
                                       (negb (video_enabled s))))) w
  | None => w
  end.

Definition selectContact (address : string) (w : World) : World :=
  with_app (set_selectedContact (Some address)) w.

(** The statements after the [await]s of a suspended method. *)
Definition resume (t : Task) (o : Outcome) (w : World) : World :=
  match t, o with
  | await_acceptCallInvitation, Fulfilled => hideIncomingCall w
  | await_declineCallInvitation, Fulfilled => hideIncomingCall w
  | await_endVideoCall, Fulfilled => cleanup w
  | await_getUserMedia, _ => startVideoCall_resume o w
  | _, _ => w
  end.

(** *** The event loop *)

Inductive Event :=
(* setupContractListeners *)
| CallInvited (from to inviteId : string)
| CallAccepted (from to : string) (callId : N)
| CallStarted (callId : N) (initiator recipient : string) (now : N)
| CallEnded (callId duration : N)
(* setupEventListeners and the onclick handlers *)
| click_contact (address : string)
| click_callBtn (inviteKey : N)
| click_acceptInvite (callKey signalingData : N)
| click_declineInvite
| click_endBtn
| click_muteBtn
| click_videoBtn
(* callbacks of a peer connection *)
| ontrack (connection stream : positive)
| onicecandidate (connection : positive) (candidate : bool) (encryptedData : N)
(* a promise awaited by the [i]-th suspended method settles *)
| settle (i : nat) (o : Outcome).

Definition step (w : World) (ev : Event) : World :=
  match ev with
  | CallInvited from to inviteId =>
      if String.eqb (toLowerCase to) (toLowerCase (userAddress (app w)))
      then showIncomingCall from inviteId w else w
  | CallAccepted from to callId =>
      if String.eqb (toLowerCase from) (toLowerCase (userAddress (app w)))
      then handleCallAccepted callId w else w
  | CallStarted callId initiator recipient now =>
      if String.eqb (toLowerCase initiator) (toLowerCase (userAddress (app w)))
         || String.eqb (toLowerCase recipient) (toLowerCase (userAddress (app w)))
      then handleCallStarted callId now w else w
  | CallEnded callId duration =>
      if bool_decide (currentCallId (app w) = Some (toString callId))
      then handleCallEnded duration w else w
  | click_contact address => selectContact address w
  | click_callBtn inviteKey => initiateCall inviteKey w
  | click_acceptInvite callKey signalingData => acceptInvite callKey signalingData w
  | click_declineInvite => declineInvite w
  | click_endBtn => endCall w
  | click_muteBtn => toggleMute w
  | click_videoBtn => toggleVideo w
  | ontrack c stream =>
      if bool_decide (c ∈ openConnections w)
      then with_app (set_remoteStream (Some stream)) w else w
  | onicecandidate c candidate encryptedData =>
      if bool_decide (c ∈ openConnections w) && candidate
      then sendSignalingData encryptedData w else w
  | settle i o =>
      match pending w !! i with
      | Some t =>
          resume t o
            (mkWorld (app w) (calls w) (delete i (pending w)) (liveStreams w)
                     (openConnections w) (runningTimers w) (nextHandle w))
      | None => w
      end
  end.

Definition run (w : World) (evs : list Event) : World := foldl step w evs.

(** *** Vocabulary of the properties *)

(** The phases of the specification.  The object has no phase field; what
    can be read off its fields is whether a call is tracked, whether that
    call was seen to start, and whether an invitation is shown. *)
Inductive Phase := Idle | IncomingInvite | OutgoingInvite | Starting | Connected | Ending.

Definition phase_of_fields (a : App) : Phase :=
  match currentCallId a, callStartTime a, currentInviteId a with
  | Some _, Some _, _ => Connected
  | Some _, None, _ => Starting
  | None, _, Some _ => IncomingInvite
  | None, _, None => Idle
  end.

(** The address is the local user's, as the listeners compare them. *)
Definition is_self (w : World) (address : string) : Prop :=
  toLowerCase address = toLowerCase (userAddress (app w)).

Definition is_endVideoCall (c : ContractCall) : bool :=
  match c with endVideoCall _ => true | _ => false end.

Definition is_startVideoCall (c : ContractCall) : bool :=
  match c with startVideoCall_tx _ => true | _ => false end.

(** The events whose handlers write or reset the call fields: the three
    contract events about a call, and the end button, whose confirmed
    transaction runs [cleanup]. *)
Definition touches_call (ev : Event) : bool :=
  match ev with
  | CallAccepted _ _ _ | CallStarted _ _ _ _ | CallEnded _ _ | click_endBtn => true
  | _ => false
  end.

(** The call fields hold the given values and no [endVideoCall] is awaited,
    so that no confirmation can run [cleanup]. *)
Definition call_kept (callId : option string) (start : option N) (w : World) : Prop :=
  currentCallId (app w) = callId
  /\ callStartTime (app w) = start
  /\ (await_endVideoCall ∉ pending w).

(** How the three fields written by [handleCallStarted] and reset by
    [cleanup] hang together. *)
Definition call_fields_inv (a : App) : Prop :=
  (is_Some (callStartTime a) -> is_Some (currentCallId a))
  /\ (is_Some (durationInterval a) <-> is_Some (callStartTime a))
  /\ (is_Some (currentCallId a) -> truthy (currentCallId a) = true).

(** *** A concrete session *)

Definition me : string := "0xAbCdEf01".
Definition peer : string := "0xB0B00002".
Definition other : string := "0xCa501003".

(** The local user is in call 7. *)
Definition in_call : World :=
  run (constructor me) [CallStarted 7 peer "0xabcdef01" 1000%N].

(** *** The duration shown by the call timer *)

(** [String.prototype.padStart(2, '0')]. *)
Definition padStart2 (s : string) : string :=
  match s with
  | EmptyString => "00"
  | String c EmptyString => String "0" (String c EmptyString)
  | _ => s
  end.

(** The text that the callback of [startCallTimer] writes into the page at
    time [now] (milliseconds, as [Date.now()] gives them), or [None] when
    [callStartTime] is [null] or zero and nothing is written.  Millisecond
    counts are integers, on which [Math.floor(x / n)] is the floor division
    and [%] the remainder with the sign of the dividend. *)
Definition callDuration_text (a : App) (now : Z) : option string :=
  match callStartTime a with
  | Some (Npos start) =>
      let elapsed := (now - Zpos start) / 1000 in
      let minutes := elapsed / 60 in
      let seconds := Z.rem elapsed 60 in
      Some (padStart2 (pretty minutes) +:+ ":" +:+ padStart2 (pretty seconds))
  | _ => None
  end.

(** *** Further vocabulary *)

(** The event is a [CallAccepted] that the listener of the user at [address]
    lets through. *)
Definition accepted_for (address : string) (ev : Event) : bool :=
  match ev with
  | CallAccepted from _ _ => String.eqb (toLowerCase from) (toLowerCase address)
  | _ => false
  end.

(** The identifier or address passed to the contract is not [null], except
    that [startVideoCall] may be called with any value. *)
Definition has_arguments (c : ContractCall) : bool :=
  match c with
  | inviteToCall recipient _ => truthy recipient
  | acceptCallInvitation inviteId _ _ => truthy inviteId
  | declineCallInvitation inviteId => truthy inviteId
  | startVideoCall_tx _ => true
  | updateSignalingData callId _ => truthy callId
  | endVideoCall callId => truthy callId
  end.

(** The browser resources of a world: what the three fields refer to, what
    is held, and the next handle. *)
Definition resources (w : World)
  : option positive * option positive * option positive
    * list positive * list positive * list positive * positive :=
  (stream_id <$> localStream (app w), peerConnection (app w), durationInterval (app w),
   liveStreams w, openConnections w, runningTimers w, nextHandle w).

(** The handles of a list were drawn from the counter, each once. *)
Definition drawn_below (next : positive) (l : list positive) : Prop :=
  NoDup l /\ forall h, h ∈ l -> (h < next)%positive.

(** The resources the fields refer to are held, and every handle in use was
    drawn from [nextHandle], once. *)
Definition handles_inv (w : World) : Prop :=
  (forall s, localStream (app w) = Some s -> stream_id s ∈ liveStreams w)
  /\ (forall c, peerConnection (app w) = Some c -> c ∈ openConnections w)
  /\ (forall t, durationInterval (app w) = Some t -> t ∈ runningTimers w)
  /\ drawn_below (nextHandle w) (liveStreams w)
  /\ drawn_below (nextHandle w) (openConnections w)
  /\ drawn_below (nextHandle w) (runningTimers w).

(** A timer that runs although [durationInterval] no longer refers to it. *)
Definition stray_timer (w : World) (t : positive) : Prop :=
  t ∈ runningTimers w /\ durationInterval (app w) <> Some t
  /\ (t < nextHandle w)%positive.

(** A captured stream, and a peer connection, that no field refers to. *)
Definition stray_stream (w : World) (h : positive) : Prop :=
  h ∈ liveStreams w
  /\ (forall s, localStream (app w) = Some s -> stream_id s <> h)
  /\ (h < nextHandle w)%positive.

Definition stray_connection (w : World) (c : positive) : Prop :=
  c ∈ openConnections w /\ peerConnection (app w) <> Some c
  /\ (c < nextHandle w)%positive.

(** The side of a user for whom no [CallAccepted] event was let through: no
    media was asked for, captured or negotiated. *)
Definition no_media (address : string) (w : World) : Prop :=
  userAddress (app w) = address
  /\ localStream (app w) = None
  /\ peerConnection (app w) = None
  /\ liveStreams w = []
  /\ openConnections w = []
  /\ (await_getUserMedia ∉ pending w)
  /\ (await_startVideoCall ∉ pending w)
  /\ Forall (fun c => is_startVideoCall c = false) (calls w).

(** *** More of the concrete session *)

(** An invitation from the peer is shown. *)
Definition invited : World := run (constructor me) [CallInvited peer me "0x01"].

(** The local user's invitation was accepted as call 7 and the media was
    captured; then the same acceptance is delivered again. *)
Definition accepted_twice : list Event :=
  [CallAccepted me peer 7; settle 0 Fulfilled; CallAccepted me peer 7].

(** The callee's session: an invitation is shown and accepted, the call
    starts and ends. *)
Definition callee_session : list Event :=
  [CallInvited peer me "0x01"; click_acceptInvite 11 12; settle 0 Fulfilled;
   CallStarted 7 peer me 1000%N; onicecandidate 1 true 5; click_muteBtn;
   CallEnded 7 60].

End Coordinator.

(** ** Properties of the ledger contract *)

Module LedgerProofs.
Import Ledger.

(** *** Reading the monad *)

Lemma bind_Ok {A B} (c : result A) (k : A -> result B) b :
  c ≫= k = Ok b -> exists a, c = Ok a /\ k a = Ok b.
Proof. destruct c; simpl; [eauto | discriminate]. Qed.

Lemma require_Ok cond reason u : require cond reason = Ok u -> cond = true.
Proof. unfold require. destruct cond; [done | discriminate]. Qed.

Lemma require_true cond reason : cond = true -> require cond reason = Ok tt.
Proof. by intros ->. Qed.

Lemma require_false cond reason :
  cond = false -> require cond reason = Revert (Error reason).
Proof. by intros ->. Qed.

Lemma succeeds_Ok {A} (r : result A) : succeeds r = true <-> exists a, r = Ok a.
Proof.
  destruct r; simpl; split; eauto; try discriminate.
  intros [? ?]; discriminate.
Qed.

Lemma succeeds_fails {A} (r : result A) : succeeds r = false <-> fails r.
Proof.
  unfold fails. destruct r; simpl; split; eauto; try discriminate.
  intros [? ?]; discriminate.
Qed.

(** Takes a successful run of a contract function apart into the
    conditions its [require]s checked. *)
Ltac invert_ok :=
  repeat match goal with
  | H : _ ≫= _ = Ok _ |- _ =>
      let u := fresh "u" in
      let Hc := fresh "Hreq" in
      apply bind_Ok in H as (u & Hc & H)
  | H : require _ _ = Ok _ |- _ => apply require_Ok in H
  | H : checked_add _ _ = Ok _ |- _ =>
      unfold checked_add in H; case_decide; [|discriminate]
  | H : checked_sub _ _ = Ok _ |- _ =>
      unfold checked_sub in H; case_decide; [|discriminate]
  | H : Ok _ = Ok _ |- _ => injection H as H; subst
  end.

Ltac unfold_storage :=
  unfold videoCall, callInvitation, userProfile, grant, push_history,
    set_videoCall, set_callInvitation, set_userProfile, set_nextCallId in *;
  simpl in *.

Lemma read_insert {V} (zero v : V) (m : gmap Z V) (k k' : Z) :
  read zero (<[k := v]> m) k' = if decide (k = k') then v else read zero m k'.
Proof.
  unfold read. case_decide; subst.
  - by rewrite lookup_insert_eq.
  - by rewrite lookup_insert_ne.
Qed.

Section WithHash.
Context `{Hash}.

Lemma apply_tx_revert chain tx :
  succeeds (dispatch tx chain.1) = false -> apply_tx chain tx = chain.
Proof. unfold apply_tx. by destruct (dispatch tx chain.1) as [[? ?]|]. Qed.

Lemma apply_tx_ok chain tx s' evs :
  dispatch tx chain.1 = Ok (s', evs) -> apply_tx chain tx = (s', chain.2 ++ evs).
Proof. unfold apply_tx. by intros ->. Qed.

Lemma run_app chain txs txs' : run chain (txs ++ txs') = run (run chain txs) txs'.
Proof. apply foldl_app. Qed.

(** *** Calls *)

Lemma startVideoCall_ok e c s s' evs :
  startVideoCall e c s = Ok (s', evs) ->
  on_active_call e c s
  /\ isConnected (videoCall s c) = false
  /\ isConnected (videoCall s' c) = true
  /\ evs = [CallStarted c (initiator (videoCall s c)) (recipient (videoCall s c))].
Proof.
  unfold startVideoCall, callExists, onlyCallParticipant, on_active_call.
  intros Hok. invert_ok.
  apply bool_decide_eq_true in Hreq.
  apply orb_true_iff in Hreq0.
  rewrite !bool_decide_eq_true in Hreq0.
  apply andb_true_iff in Hreq1 as [Hact Hconn].
  apply negb_true_iff in Hconn.
  repeat split; try done.
  unfold_storage. by rewrite read_insert, decide_True.
Qed.

Lemma updateSignalingData_ok e c d s s' evs :
  updateSignalingData e c d s = Ok (s', evs) -> on_active_call e c s.
Proof.
  unfold updateSignalingData, callExists, onlyCallParticipant, on_active_call.
  intros Hok. invert_ok.
  apply bool_decide_eq_true in Hreq.
  apply orb_true_iff in Hreq0.
  rewrite !bool_decide_eq_true in Hreq0.
  done.
Qed.

Lemma endVideoCall_ok e c s s' evs :
  endVideoCall e c s = Ok (s', evs) ->
  on_active_call e c s /\ isActive (videoCall s' c) = false.
Proof.
  unfold endVideoCall, callExists, onlyCallParticipant, on_active_call.
  intros Hok. invert_ok.
  apply bool_decide_eq_true in Hreq.
  apply orb_true_iff in Hreq0.
  rewrite !bool_decide_eq_true in Hreq0.
  repeat split; try done.
  unfold_storage. by rewrite read_insert, decide_True.
Qed.

Lemma endVideoCall_not_twice e c s s' evs e' :
  endVideoCall e c s = Ok (s', evs) -> fails (endVideoCall e' c s').
Proof.
  intros Hok. apply endVideoCall_ok in Hok as [_ Hoff].
  apply succeeds_fails.
  destruct (succeeds _) eqn:Hs; [| done].
  apply succeeds_Ok in Hs as [[s'' evs'] Hok'].
  apply endVideoCall_ok in Hok' as [(_ & _ & Hon) _]. congruence.
Qed.

(** C8.  [startVideoCall], [updateSignalingData] and [endVideoCall]
    succeed only when the caller is the initiator or the recipient of an
    existing, active call; when the caller is not a participant or the
    call is not active, the operation fails and the storage, the call
    record included, is left as it was. *)
Theorem call_operations_need_active_participant e c d s op :
  op ∈ call_operations c d ->
  (succeeds (dispatch (mkTx e op) s) = true -> on_active_call e c s)
  /\ (~ on_active_call e c s ->
      fails (dispatch (mkTx e op) s)
      /\ forall log,
           apply_tx (s, log) (mkTx e op) = (s, log)
           /\ videoCall (apply_tx (s, log) (mkTx e op)).1 c = videoCall s c).
Proof.
  intros Hop.
  assert (succeeds (dispatch (mkTx e op) s) = true -> on_active_call e c s) as Honly.
  { intros Hs. apply succeeds_Ok in Hs as [[s' evs] Hok].
    unfold call_operations in Hop.
    rewrite !elem_of_cons in Hop.
    destruct Hop as [-> | [-> | [-> | Hnil]]]; simpl in Hok.
    - by apply startVideoCall_ok in Hok as [? _].
    - by apply updateSignalingData_ok in Hok.
    - by apply endVideoCall_ok in Hok as [? _].
    - by apply elem_of_nil in Hnil. }
  split; [done |].
  intros Hnot.
  assert (succeeds (dispatch (mkTx e op) s) = false) as Hf.
  { destruct (succeeds _) eqn:Hs; [|done]. by destruct Hnot, Honly. }
  split; [by apply succeeds_fails |].
  intros log.
  by rewrite (apply_tx_revert (s, log)).
Qed.

(** *** Invitations *)

Lemma acceptCallInvitation_ok e id k d s s' evs :
  acceptCallInvitation e id k d s = Ok (s', evs) ->
  responded (callInvitation s id) = false
  /\ isAccepted (callInvitation s' id) = true
  /\ isDeclined (callInvitation s' id) = false.
Proof.
  unfold acceptCallInvitation, onlyRegistered, responded.
  intros Hok. invert_ok.
  apply andb_true_iff in Hreq1 as [Hacc Hdec].
  apply negb_true_iff in Hacc, Hdec.
  unfold_storage. rewrite read_insert, decide_True by done. simpl.
  by rewrite Hacc, Hdec.
Qed.

Lemma declineCallInvitation_ok e id s s' evs :
  declineCallInvitation e id s = Ok (s', evs) ->
  responded (callInvitation s id) = false
  /\ isAccepted (callInvitation s' id) = false
  /\ isDeclined (callInvitation s' id) = true.
Proof.
  unfold declineCallInvitation, onlyRegistered, responded.
  intros Hok. invert_ok.
  apply andb_true_iff in Hreq1 as [Hacc Hdec].
  apply negb_true_iff in Hacc, Hdec.
  unfold_storage. rewrite read_insert, decide_True by done. simpl.
  by rewrite Hacc, Hdec.
Qed.

Lemma responded_blocks_accept e id k d s :
  responded (callInvitation s id) = true ->
  fails (acceptCallInvitation e id k d s)
  /\ (isRegistered (userProfile s (msg_sender e)) = true ->
      to (callInvitation s id) = msg_sender e ->
      fails_with (acceptCallInvitation e id k d s) "Invitation already responded").
Proof.
  intros Hresp.
  assert (negb (isAccepted (callInvitation s id))
          && negb (isDeclined (callInvitation s id)) = false) as Hcond.
  { unfold responded in Hresp.
    destruct (isAccepted _), (isDeclined _); simpl in *; congruence. }
  split.
  - apply succeeds_fails.
    destruct (succeeds _) eqn:Hs; [|done].
    apply succeeds_Ok in Hs as [[s' evs] Hok].
    apply acceptCallInvitation_ok in Hok as [Hno _]. congruence.
  - intros Hreg Hto.
    unfold fails_with, acceptCallInvitation, onlyRegistered.
    rewrite (require_true _ _ Hreg). simpl.
    rewrite (require_true (bool_decide _)) by by apply bool_decide_eq_true.
    simpl. by rewrite (require_false _ _ Hcond).
Qed.

Lemma responded_blocks_decline e id s :
  responded (callInvitation s id) = true ->
  fails (declineCallInvitation e id s)
  /\ (isRegistered (userProfile s (msg_sender e)) = true ->
      to (callInvitation s id) = msg_sender e ->
      fails_with (declineCallInvitation e id s) "Invitation already responded").
Proof.
  intros Hresp.
  assert (negb (isAccepted (callInvitation s id))
          && negb (isDeclined (callInvitation s id)) = false) as Hcond.
  { unfold responded in Hresp.
    destruct (isAccepted _), (isDeclined _); simpl in *; congruence. }
  split.
  - apply succeeds_fails.
    destruct (succeeds _) eqn:Hs; [|done].
    apply succeeds_Ok in Hs as [[s' evs] Hok].
    apply declineCallInvitation_ok in Hok as [Hno _]. congruence.
  - intros Hreg Hto.
    unfold fails_with, declineCallInvitation, onlyRegistered.
    rewrite (require_true _ _ Hreg). simpl.
    rewrite (require_true (bool_decide _)) by by apply bool_decide_eq_true.
    simpl. by rewrite (require_false _ _ Hcond).
Qed.

(** An answered invitation is rewritten by nothing but an [inviteToCall]
    that derives its identifier again. *)
Lemma answered_invitation_frame tx s s' evs id :
  dispatch tx s = Ok (s', evs) ->
  recreates id tx = false ->
  responded (callInvitation s id) = true ->
  callInvitation s' id = callInvitation s id.
Proof.
  destruct tx as [e call]. unfold dispatch, recreates. simpl.
  intros Hok Hnew Hresp.
  destruct call; simpl in *.
  - unfold registerUser in Hok. invert_ok. by unfold_storage.
  - unfold updateUserStatus, onlyRegistered in Hok. invert_ok. by unfold_storage.
  - unfold inviteToCall, onlyRegistered in Hok. invert_ok.
    apply bool_decide_eq_false in Hnew.
    unfold_storage. by rewrite read_insert, decide_False.
  - destruct (decide (_inviteId = id)) as [-> | Hne].
    + apply acceptCallInvitation_ok in Hok as [Hno _]. congruence.
    + unfold acceptCallInvitation, onlyRegistered in Hok. invert_ok.
      unfold_storage. by rewrite read_insert, decide_False.
  - destruct (decide (_inviteId = id)) as [-> | Hne].
    + apply declineCallInvitation_ok in Hok as [Hno _]. congruence.
    + unfold declineCallInvitation, onlyRegistered in Hok. invert_ok.
      unfold_storage. by rewrite read_insert, decide_False.
  - unfold startVideoCall, callExists, onlyCallParticipant in Hok.
    invert_ok. by unfold_storage.
  - unfold updateSignalingData, callExists, onlyCallParticipant in Hok.
    invert_ok. by unfold_storage.
  - unfold endVideoCall, callExists, onlyCallParticipant in Hok.
    invert_ok. by unfold_storage.
  - unfold addTrustedContact, onlyRegistered in Hok. invert_ok. by unfold_storage.
  - unfold blockUser, onlyRegistered in Hok. invert_ok. by unfold_storage.
  - unfold unblockUser, onlyRegistered in Hok. invert_ok. by unfold_storage.
Qed.

Lemma answered_invitation_stays chain txs id :
  Forall (fun tx => recreates id tx = false) txs ->
  responded (callInvitation chain.1 id) = true ->
  callInvitation (run chain txs).1 id = callInvitation chain.1 id.
Proof.
  intros Hall. revert chain.
  induction Hall as [| tx txs Htx _ IH]; intros chain Hresp; [done |].
  unfold run in *. simpl.
  unfold apply_tx at 2.
  destruct (dispatch tx chain.1) as [[s' evs] |] eqn:Hd.
  - pose proof (answered_invitation_frame _ _ _ _ _ Hd Htx Hresp) as Hframe.
    rewrite IH; simpl; by rewrite Hframe.
  - by apply IH.
Qed.

(** C3, amended.  A successful [acceptCallInvitation] or
    [declineCallInvitation] finds both flags of the invitation false and
    sets exactly one of them.  From then on, over every sequence of
    transactions none of which is an [inviteToCall] deriving the same
    identifier, the record stays as it is and every further accept or
    decline of that identifier fails and changes nothing; the failure is
    the already-responded error when the caller is registered and is the
    invitation's recipient. *)
Theorem invitation_answered_once id e call s s' evs log txs e' call' :
  answers id call ->
  dispatch (mkTx e call) s = Ok (s', evs) ->
  Forall (fun tx => recreates id tx = false) txs ->
  answers id call' ->
  let later := run (s', log) txs in
  responded (callInvitation s id) = false
  /\ isAccepted (callInvitation s' id) = negb (isDeclined (callInvitation s' id))
  /\ callInvitation later.1 id = callInvitation s' id
  /\ fails (dispatch (mkTx e' call') later.1)
  /\ apply_tx later (mkTx e' call') = later
  /\ (isRegistered (userProfile later.1 (msg_sender e')) = true ->
      to (callInvitation later.1 id) = msg_sender e' ->
      fails_with (dispatch (mkTx e' call') later.1) "Invitation already responded").
Proof.
  intros Hcall Hok Hall Hcall' later.
  assert (responded (callInvitation s id) = false
          /\ isAccepted (callInvitation s' id) = negb (isDeclined (callInvitation s' id))
          /\ responded (callInvitation s' id) = true) as (Hbefore & Hone & Hafter).
  { unfold responded.
    destruct Hcall as [(k & d & ->) | ->]; simpl in Hok.
    - apply acceptCallInvitation_ok in Hok as (? & -> & ->). done.
    - apply declineCallInvitation_ok in Hok as (? & -> & ->). done. }
  assert (callInvitation later.1 id = callInvitation s' id) as Hstay.
  { by apply (answered_invitation_stays (s', log)). }
  assert (responded (callInvitation later.1 id) = true) as Hlater by by rewrite Hstay.
  assert (fails (dispatch (mkTx e' call') later.1)
          /\ (isRegistered (userProfile later.1 (msg_sender e')) = true ->
              to (callInvitation later.1 id) = msg_sender e' ->
              fails_with (dispatch (mkTx e' call') later.1)
                         "Invitation already responded")) as [Hfail Hwhy].
  { destruct Hcall' as [(k & d & ->) | ->]; simpl.
    - by apply responded_blocks_accept.
    - by apply responded_blocks_decline. }
  repeat split; try done.
  apply apply_tx_revert. by apply succeeds_fails.
Qed.

(** *** Invitation identifiers *)

Lemma inviteToCall_ok e r k s s' evs :
  inviteToCall e r k s = Ok (s', evs) ->
  let id := keccak256 (msg_sender e) r (block_timestamp e) in
  evs = [CallInvited (msg_sender e) r id]
  /\ callInvitation s' id
     = mkCallInvitation (msg_sender e) r (asEuint64 k) (block_timestamp e) false false
  /\ isRegistered (userProfile s' r) = true
  /\ nextCallId s' = nextCallId s.
Proof.
  intros Hok id. unfold inviteToCall, onlyRegistered in Hok. invert_ok.
  subst id. unfold_storage. by rewrite read_insert, decide_True.
Qed.

Lemma fresh_invitation_accepts e id k d s :
  isRegistered (userProfile s (msg_sender e)) = true ->
  to (callInvitation s id) = msg_sender e ->
  responded (callInvitation s id) = false ->
  nextCallId s + 1 <= max_uint256 ->
  succeeds (acceptCallInvitation e id k d s) = true.
Proof.
  intros Hreg Hto Hresp Hroom.
  unfold acceptCallInvitation, onlyRegistered, responded in *.
  apply orb_false_iff in Hresp as [-> ->].
  rewrite (require_true _ _ Hreg). simpl.
  rewrite (require_true (bool_decide _)) by by apply bool_decide_eq_true.
  simpl. unfold checked_add. by rewrite decide_True.
Qed.

Lemma fresh_invitation_declines e id s :
  isRegistered (userProfile s (msg_sender e)) = true ->
  to (callInvitation s id) = msg_sender e ->
  responded (callInvitation s id) = false ->
  succeeds (declineCallInvitation e id s) = true.
Proof.
  intros Hreg Hto Hresp.
  unfold declineCallInvitation, onlyRegistered, responded in *.
  apply orb_false_iff in Hresp as [-> ->].
  rewrite (require_true _ _ Hreg). simpl.
  by rewrite (require_true (bool_decide _)) by by apply bool_decide_eq_true.
Qed.

(** C9.  Two successful [inviteToCall] calls with the same sender,
    recipient and block timestamp derive the same identifier; the second
    one, whatever the storage it runs in, overwrites the record with both
    flags false, so the recipient can accept or decline it again (an
    accept also needs room for the next call identifier). *)
Theorem same_block_invite_resets_invitation e r k1 k2 s1 s1' evs1 s2 s2' evs2 :
  inviteToCall e r k1 s1 = Ok (s1', evs1) ->
  inviteToCall e r k2 s2 = Ok (s2', evs2) ->
  let id := keccak256 (msg_sender e) r (block_timestamp e) in
  evs1 = [CallInvited (msg_sender e) r id]
  /\ evs2 = [CallInvited (msg_sender e) r id]
  /\ callInvitation s2' id
     = mkCallInvitation (msg_sender e) r (asEuint64 k2) (block_timestamp e) false false
  /\ (forall e', msg_sender e' = r ->
        succeeds (declineCallInvitation e' id s2') = true
        /\ forall k d, nextCallId s2' + 1 <= max_uint256 ->
             succeeds (acceptCallInvitation e' id k d s2') = true).
Proof.
  intros Hfirst Hsecond id.
  apply inviteToCall_ok in Hfirst as (Hev1 & _).
  apply inviteToCall_ok in Hsecond as (Hev2 & Hrec & Hreg & _).
  fold id in Hev1, Hev2, Hrec.
  split; [done |]. split; [done |]. split; [done |].
  intros e' He'. split.
  - apply fresh_invitation_declines; rewrite ?Hrec, ?He'; done.
  - intros k d Hroom.
    apply fresh_invitation_accepts; rewrite ?Hrec, ?He'; done.
Qed.

(** *** Starting a call *)

Lemma started_app c log evs : started c (log ++ evs) = (started c log + started c evs)%nat.
Proof. unfold started. by rewrite List.filter_app, length_app. Qed.

Lemma started_CallStarted c c' a b :
  started c [CallStarted c' a b] = if decide (c' = c) then 1%nat else 0%nat.
Proof. unfold started. simpl. by repeat case_decide; case_bool_decide. Qed.

Lemma chain_inv_deploy e : chain_inv (deploy e).
Proof. intros c. split; [discriminate | done]. Qed.

(** The effect of one successful transaction on the calls and the log. *)
Lemma dispatch_calls tx s s' evs :
  dispatch tx s = Ok (s', evs) ->
  nextCallId s <= nextCallId s'
  /\ forall c,
       (isConnected (videoCall s' c) = isConnected (videoCall s c)
        /\ started c evs = 0%nat)
       \/ (c < nextCallId s
           /\ isConnected (videoCall s c) = false
           /\ isConnected (videoCall s' c) = true
           /\ started c evs = 1%nat)
       \/ (c = nextCallId s
           /\ nextCallId s < nextCallId s'
           /\ isConnected (videoCall s' c) = false
           /\ started c evs = 0%nat).
Proof.
  destruct tx as [e call]. unfold dispatch. simpl. intros Hok.
  destruct call; simpl in *.
  - unfold registerUser in Hok. invert_ok. unfold_storage. split; [lia | by left].
  - unfold updateUserStatus, onlyRegistered in Hok. invert_ok. unfold_storage.
    split; [lia | by left].
  - unfold inviteToCall, onlyRegistered in Hok. invert_ok. unfold_storage.
    split; [lia | by left].
  - unfold acceptCallInvitation, onlyRegistered in Hok. invert_ok. unfold_storage.
    split; [lia |]. intros c. rewrite read_insert.
    destruct (decide (nextCallId s = c)) as [<- | Hne].
    + right. right. simpl. repeat split; try done. lia.
    + by left.
  - unfold declineCallInvitation, onlyRegistered in Hok. invert_ok. unfold_storage.
    split; [lia | by left].
  - pose proof (startVideoCall_ok _ _ _ _ _ Hok) as ((Hlt & _ & _) & Hoff & Hon & ->).
    unfold startVideoCall, callExists, onlyCallParticipant in Hok. invert_ok.
    split; [unfold_storage; lia |]. intros c.
    rewrite started_CallStarted.
    destruct (decide (_callId = c)) as [<- | Hne].
    + right. left. done.
    + left. split; [| done]. unfold_storage. by rewrite read_insert, decide_False.
  - unfold updateSignalingData, callExists, onlyCallParticipant in Hok. invert_ok.
    unfold_storage. split; [lia |]. intros c. left. split; [| done].
    rewrite read_insert. by destruct (decide (_callId = c)) as [<- | Hne].
  - unfold endVideoCall, callExists, onlyCallParticipant in Hok. invert_ok.
    unfold_storage. split; [lia |]. intros c. left. split; [| done].
    rewrite read_insert. by destruct (decide (_callId = c)) as [<- | Hne].
  - unfold addTrustedContact, onlyRegistered in Hok. invert_ok. unfold_storage.
    split; [lia | by left].
  - unfold blockUser, onlyRegistered in Hok. invert_ok. unfold_storage.
    split; [lia | by left].
  - unfold unblockUser, onlyRegistered in Hok. invert_ok. unfold_storage.
    split; [lia | by left].
Qed.

Lemma chain_inv_apply_tx chain tx : chain_inv chain -> chain_inv (apply_tx chain tx).
Proof.
  intros Hinv. unfold apply_tx.
  destruct (dispatch tx chain.1) as [[s' evs] |] eqn:Hd; [| done].
  apply dispatch_calls in Hd as [Hnext Hcalls].
  intros c. simpl. rewrite started_app.
  destruct (Hinv c) as [Hon Hoff].
  destruct (Hcalls c) as [(-> & ->) | [(Hlt & Hwas & -> & ->) | (-> & Hlt & -> & ->)]].
  - split.
    + intros Hc. destruct (Hon Hc). lia.
    + intros Hc. rewrite (Hoff Hc). done.
  - split; [| discriminate]. intros _. rewrite (Hoff Hwas). lia.
  - split; [discriminate |]. intros _.
    destruct (isConnected (videoCall chain.1 (nextCallId chain.1))) eqn:Hc.
    + destruct (Hon eq_refl). lia.
    + by rewrite Hoff.
Qed.

Lemma chain_inv_run chain txs : chain_inv chain -> chain_inv (run chain txs).
Proof.
  revert chain. induction txs as [| tx txs IH]; intros chain Hinv; [done |].
  apply IH. by apply chain_inv_apply_tx.
Qed.

Lemma connected_stays chain txs c :
  chain_inv chain ->
  isConnected (videoCall chain.1 c) = true ->
  isConnected (videoCall (run chain txs).1 c) = true.
Proof.
  revert chain. induction txs as [| tx txs IH]; intros chain Hinv Hc; [done |].
  apply IH; [by apply chain_inv_apply_tx |].
  unfold apply_tx.
  destruct (dispatch tx chain.1) as [[s' evs] |] eqn:Hd; [| done].
  apply dispatch_calls in Hd as [Hnext Hcalls]. simpl.
  destruct (Hinv c) as [Hon _]. destruct (Hon Hc) as [Hlt _].
  destruct (Hcalls c) as [(-> & _) | [(_ & _ & -> & _) | (-> & _)]]; [done | done | lia].
Qed.

Lemma connected_blocks_start e c s :
  isConnected (videoCall s c) = true ->
  fails (startVideoCall e c s)
  /\ (on_active_call e c s ->
      fails_with (startVideoCall e c s) "Call not ready or already connected").
Proof.
  intros Hc. split.
  - apply succeeds_fails.
    destruct (succeeds _) eqn:Hs; [| done].
    apply succeeds_Ok in Hs as [[s' evs] Hok].
    apply startVideoCall_ok in Hok as (_ & Hoff & _). congruence.
  - intros (Hlt & Hpart & Hact).
    unfold fails_with, startVideoCall, callExists, onlyCallParticipant.
    rewrite (require_true (bool_decide _)) by by apply bool_decide_eq_true.
    simpl.
    rewrite (require_true (_ || _)).
    2:{ apply orb_true_iff. rewrite !bool_decide_eq_true. done. }
    simpl. by rewrite Hc, Hact.
Qed.

(** C10.  On every chain grown from the deployment, the log holds at most
    one [CallStarted] event per call identifier.  A successful
    [startVideoCall] finds no such event, emits one and sets
    [isConnected]; once [isConnected] is set it stays set over every
    further sequence of transactions, so the check
    [isActive && !isConnected] is false from then on and every later
    [startVideoCall] of that identifier fails, with the
    not-ready-or-already-connected error when it reaches that check. *)
Theorem startVideoCall_at_most_once deployer txs c :
  let chain := run (deploy deployer) txs in
  (started c chain.2 <= 1)%nat
  /\ (forall e s' evs,
        startVideoCall e c chain.1 = Ok (s', evs) ->
        isConnected (videoCall s' c) = true
        /\ started c chain.2 = 0%nat
        /\ started c (chain.2 ++ evs) = 1%nat)
  /\ (isConnected (videoCall chain.1 c) = true ->
      forall more e,
        let later := run chain more in
        isConnected (videoCall later.1 c) = true
        /\ isActive (videoCall later.1 c) && negb (isConnected (videoCall later.1 c)) = false
        /\ fails (startVideoCall e c later.1)
        /\ apply_tx later (mkTx e (call_startVideoCall c)) = later
        /\ (on_active_call e c later.1 ->
            fails_with (startVideoCall e c later.1)
                       "Call not ready or already connected")).
Proof.
  intros chain.
  assert (chain_inv chain) as Hinv by apply chain_inv_run, chain_inv_deploy.
  split; [| split].
  - destruct (Hinv c) as [Hon Hoff].
    destruct (isConnected (videoCall chain.1 c)) eqn:Hc.
    + by destruct (Hon eq_refl).
    + rewrite (Hoff eq_refl). lia.
  - intros e s' evs Hok.
    apply startVideoCall_ok in Hok as (_ & Hoff & Hon & ->).
    destruct (Hinv c) as [_ Hnone].
    rewrite started_app, started_CallStarted, (Hnone Hoff), decide_True by done.
    done.
  - intros Hc more e later.
    assert (isConnected (videoCall later.1 c) = true) as Hlater
      by by apply connected_stays.
    destruct (connected_blocks_start e c later.1 Hlater) as [Hfail Hwhy].
    repeat split; try done.
    + rewrite Hlater. apply andb_false_r.
    + apply apply_tx_revert. by apply succeeds_fails.
Qed.

End WithHash.
(** *** The theorems on the concrete chain *)

(** Bob, the recipient of call 1, may start it: the call exists, is active
    and he takes part in it. *)
Lemma call_operations_witness : on_active_call (mkEnv bob 300) 1 accepted_chain.1.
Proof.
  apply (proj1 (call_operations_need_active_participant (H := packed)
                  (mkEnv bob 300) 1 0 accepted_chain.1 (call_startVideoCall 1)
                  (list_elem_of_here _ _))).
  vm_compute. reflexivity.
Defined.

(** C3 as stated fails: Bob accepts invitation [invite_1]; Alice invites
    him again in the same block; Bob's later decline of the same identifier
    succeeds, and so would a second accept. *)
Lemma accept_then_decline_both_succeed :
  succeeds (dispatch (H := packed) accept_tx invited_chain.1) = true
  /\ getInvitationInfo invite_1 accepted_chain.1 = (alice, bob, 200, true, false)
  /\ succeeds (dispatch (H := packed) decline_tx reinvited_chain.1) = true
  /\ succeeds (dispatch (H := packed) accept_tx reinvited_chain.1) = true.
Proof. vm_compute. repeat split; reflexivity. Qed.

(** Once Bob has accepted, Carol's invitation of Bob does not reopen the
    one he answered, and his decline fails with the already-responded
    error. *)
Lemma invitation_answered_once_witness :
  fails_with (dispatch (H := packed)
                (mkTx (mkEnv bob 201) (call_declineCallInvitation invite_1))
                (run (H := packed) (accepted_chain.1, accepted_chain.2)
                   [mkTx (mkEnv carol 250) (call_inviteToCall bob 9)]).1)
             "Invitation already responded".
Proof.
  assert (answers invite_1 (call_acceptCallInvitation invite_1 6 7)) as Hacc.
  { left. by exists 6, 7. }
  assert (answers invite_1 (call_declineCallInvitation invite_1)) as Hdec by by right.
  assert (Forall (fun tx => recreates (H := packed) invite_1 tx = false)
            [mkTx (mkEnv carol 250) (call_inviteToCall bob 9)]) as Hall.
  { constructor; [vm_compute; reflexivity | constructor]. }
  assert (dispatch (H := packed)
            (mkTx (mkEnv bob 200) (call_acceptCallInvitation invite_1 6 7))
            invited_chain.1
          = Ok (accepted_chain.1, [CallAccepted alice bob 1])) as Hok.
  { vm_compute. reflexivity. }
  destruct (invitation_answered_once (H := packed) invite_1 _ _ _ _ _
              accepted_chain.2 _ (mkEnv bob 201) _ Hacc Hok Hall Hdec)
    as (_ & _ & _ & _ & _ & Hwhy).
  apply Hwhy.
  - vm_compute. reflexivity.
  - vm_compute. reflexivity.
Defined.

(** Alice's second invitation of Bob in block 200 brings back the record
    that Bob had accepted, with both flags cleared. *)
Lemma same_block_invite_witness :
  callInvitation reinvited_chain.1 invite_1
  = mkCallInvitation alice bob (asEuint64 8) 200 false false.
Proof.
  assert (inviteToCall (H := packed) (mkEnv alice 200) bob 5 registered_chain.1
          = Ok (invited_chain.1, [CallInvited alice bob invite_1])) as Hfirst.
  { vm_compute. reflexivity. }
  assert (inviteToCall (H := packed) (mkEnv alice 200) bob 8 accepted_chain.1
          = Ok (reinvited_chain.1, [CallInvited alice bob invite_1])) as Hsecond.
  { vm_compute. reflexivity. }
  exact (proj1 (proj2 (proj2
           (same_block_invite_resets_invitation (H := packed) _ _ _ _ _ _ _ _ _ _
              Hfirst Hsecond)))).
Defined.

(** After Bob has started call 1, and whatever Carol does next, Alice
    cannot start it again. *)
Lemma startVideoCall_at_most_once_witness :
  fails_with (startVideoCall (mkEnv alice 301) 1
                (run (H := packed)
                   (run (H := packed) (deploy deployer) started_txs)
                   [mkTx (mkEnv carol 310) (call_updateUserStatus 2)]).1)
             "Call not ready or already connected".
Proof.
  destruct (startVideoCall_at_most_once (H := packed) deployer started_txs 1)
    as (_ & _ & Hlater).
  assert (isConnected (videoCall (run (H := packed) (deploy deployer) started_txs).1 1)
          = true) as Hc.
  { vm_compute. reflexivity. }
  destruct (Hlater Hc [mkTx (mkEnv carol 310) (call_updateUserStatus 2)]
              (mkEnv alice 301)) as (_ & _ & _ & _ & Hwhy).
  apply Hwhy. split; [| split].
  - vm_compute. reflexivity.
  - left. vm_compute. reflexivity.
  - vm_compute. reflexivity.
Defined.

(** *** Every transaction, case by case *)

(** Splits a successful run of an external function into the conditions it
    checked, and a successful transaction into the eleven functions. *)
Ltac function_conditions Hok :=
  try unfold dispatch in Hok; simpl in Hok;
  cbv beta zeta delta
    [registerUser updateUserStatus inviteToCall acceptCallInvitation
     declineCallInvitation startVideoCall updateSignalingData endVideoCall
     addTrustedContact blockUser unblockUser
     onlyRegistered callExists onlyCallParticipant] in Hok;
  invert_ok.

Ltac dispatch_cases Hok :=
  unfold dispatch in Hok; simpl in Hok;
  match type of Hok with
  | match ?call with _ => _ end = _ => destruct call
  end;
  function_conditions Hok.

Ltac unfold_views :=
  unfold isUserRegistered, isUserBlocked, isTrustedContact, getUserCallHistory,
    getInvitationInfo in *.

Section Users.
Context `{Hash}.

(** Follows a property of the storage along a sequence of transactions. *)
Lemma run_preserves (P : State -> Prop) :
  (forall tx s s' evs, dispatch tx s = Ok (s', evs) -> P s -> P s') ->
  forall txs chain, P chain.1 -> P (run chain txs).1.
Proof.
  intros Hstep txs. induction txs as [| tx txs IH]; intros chain HP; [done |].
  apply IH. unfold apply_tx.
  destruct (dispatch tx chain.1) as [[s' evs] |] eqn:Hd; [| done].
  simpl. by eapply Hstep.
Qed.


(** *** Registration *)

Lemma registered_step a tx s s' evs :
  dispatch tx s = Ok (s', evs) ->
  isUserRegistered a s = true -> isUserRegistered a s' = true.
Proof.
  destruct tx as [e call]. intros Hok Hreg. unfold_views.
  dispatch_cases Hok; unfold_storage; try done;
    rewrite read_insert; destruct (decide (msg_sender e = a)) as [<- |]; done.
Qed.

Lemma registered_run a txs chain :
  isUserRegistered a chain.1 = true -> isUserRegistered a (run chain txs).1 = true.
Proof.
  apply (run_preserves (fun s => isUserRegistered a s = true)).
  intros tx s s' evs. apply registered_step.
Qed.

(** X1.  [registerUser] succeeds exactly when the sender is not registered
    yet.  A successful registration is never undone: whatever transactions
    follow, the sender is registered and a further [registerUser] from the
    same address fails with the already-registered error. *)
Theorem registration_is_permanent e pk st s s' evs log txs :
  registerUser e pk st s = Ok (s', evs) ->
  let later := run (s', log) txs in
  isUserRegistered (msg_sender e) s = false
  /\ evs = [UserRegistered (msg_sender e)]
  /\ isUserRegistered (msg_sender e) later.1 = true
  /\ (forall e' pk' st',
        msg_sender e' = msg_sender e ->
        fails_with (registerUser e' pk' st' later.1) "User already registered")
  /\ (forall e' pk' st' s0,
        isUserRegistered (msg_sender e') s0 = false ->
        succeeds (registerUser e' pk' st' s0) = true).
Proof.
  intros Hok later.
  assert (isUserRegistered (msg_sender e) s' = true) as Hnow.
  { unfold registerUser in Hok. invert_ok. unfold_views. unfold_storage.
    by rewrite read_insert, decide_True. }
  assert (isUserRegistered (msg_sender e) later.1 = true) as Hlater
    by by apply (registered_run _ txs (s', log)).
  unfold registerUser in Hok. invert_ok.
  apply negb_true_iff in Hreq.
  repeat split; try done.
  - intros e' pk' st' He'. unfold fails_with, registerUser.
    unfold isUserRegistered in Hlater. rewrite He', Hlater. done.
  - intros e' pk' st' s0 Hnot. unfold registerUser.
    unfold isUserRegistered in Hnot. by rewrite Hnot.
Qed.


(** *** What accepting an invitation writes *)

Lemma history_push a n s u :
  getUserCallHistory u (push_history a n s)
  = getUserCallHistory u s ++ (if decide (a = u) then [n] else []).
Proof.
  unfold getUserCallHistory, push_history. simpl. rewrite read_insert.
  destruct (decide (a = u)) as [-> |]; [done | by rewrite app_nil_r].
Qed.

Lemma acceptCallInvitation_writes e id k d s s' evs :
  acceptCallInvitation e id k d s = Ok (s', evs) ->
  let inv := callInvitation s id in
  let n := nextCallId s in
  isUserRegistered (msg_sender e) s = true
  /\ to inv = msg_sender e
  /\ nextCallId s' = n + 1
  /\ videoCalls s'
     = <[n := mkVideoCall (from inv) (msg_sender e) (asEuint64 k) (asEuint32 d)
                          true false (block_timestamp e) 0 (asEuint32 0)]> (videoCalls s)
  /\ userProfiles s' = userProfiles s
  /\ callInvitations s'
     = <[id := mkCallInvitation (from inv) (to inv) (encryptedInviteKey inv)
                                (timestamp inv) true (isDeclined inv)]> (callInvitations s)
  /\ (forall u,
        getUserCallHistory u s'
        = getUserCallHistory u s
          ++ (if decide (from inv = u) then [n] else [])
          ++ (if decide (msg_sender e = u) then [n] else []))
  /\ evs = [CallAccepted (from inv) (msg_sender e) n].
Proof.
  intros Hok inv n. unfold acceptCallInvitation, onlyRegistered in Hok. invert_ok.
  apply bool_decide_eq_true in Hreq0.
  split; [done |]. split; [done |].
  split; [done |]. split; [done |]. split; [done |]. split; [done |].
  split; [| done].
  intros usr.
  change (getUserCallHistory usr (grant ?gs ?x)) with (getUserCallHistory usr x).
  rewrite !history_push, <- app_assoc. done.
Qed.

(** *** The calls of a reachable chain *)

Lemma stored_if_active s c : isActive (videoCall s c) = true -> is_Some (videoCalls s !! c).
Proof.
  unfold videoCall, read. destruct (videoCalls s !! c); [eauto | discriminate].
Qed.

Lemma in_range_if_active s c :
  (forall c, c < 1 \/ nextCallId s <= c -> videoCalls s !! c = None) ->
  isActive (videoCall s c) = true -> 1 <= c < nextCallId s.
Proof.
  intros Hout Hact. apply stored_if_active in Hact as [v Hv].
  destruct (decide (1 <= c < nextCallId s)) as [| Hno]; [done |].
  rewrite Hout in Hv by lia. discriminate.
Qed.

Lemma calls_inv_deploy e : calls_inv (constructor e).
Proof.
  unfold calls_inv, constructor, getUserCallHistory, videoCall, callInvitation,
    userProfile, read. simpl.
  split; [lia |]. split; [done |]. split; [done |].
  split; [intros id; by left |].
  intros u c. rewrite lookup_empty. simpl. split.
  - intros Hin. by apply elem_of_nil in Hin.
  - lia.
Qed.

Lemma calls_inv_accept e id k d s s' evs :
  acceptCallInvitation e id k d s = Ok (s', evs) -> calls_inv s -> calls_inv s'.
Proof.
  intros Hok (Hone & Hout & Hact & Hinv & Hhist).
  apply acceptCallInvitation_writes in Hok
    as (Hsender & Hto & Hnext & Hcalls & Hprof & Hinvs & Hpush & _).
  assert (forall c, videoCall s' c
                    = if decide (nextCallId s = c)
                      then mkVideoCall (from (callInvitation s id)) (msg_sender e)
                             (asEuint64 k) (asEuint32 d) true false
                             (block_timestamp e) 0 (asEuint32 0)
                      else videoCall s c) as Hcall.
  { intros c. unfold videoCall. rewrite Hcalls. apply read_insert. }
  assert (forall a, userProfile s' a = userProfile s a) as Hsame.
  { intros a. unfold userProfile. by rewrite Hprof. }
  assert (isRegistered (userProfile s (from (callInvitation s id))) = true) as Hfrom.
  { destruct (Hinv id) as [-> |]; [by rewrite Hto | done]. }
  split; [lia |]. split; [| split; [| split]].
  - intros c Hc. rewrite Hcalls, lookup_insert_ne by lia. apply Hout. lia.
  - intros c. rewrite Hcall, !Hsame. destruct (decide (nextCallId s = c)); simpl.
    + done.
    + apply Hact.
  - intros id'. unfold callInvitation at 1 2 3. rewrite Hinvs, read_insert, !Hsame.
    destruct (decide (id = id')) as [<- |]; simpl; apply Hinv.
  - intros u c. rewrite Hpush, !elem_of_app, Hhist, Hnext, Hcall.
    destruct (decide (nextCallId s = c)) as [<- | Hne]; simpl.
    + split.
      * intros [[Hlt _] | [Hin | Hin]]; [lia | |];
          case_decide; subst; rewrite ?elem_of_nil in Hin; try done;
          (split; [lia | auto]).
      * intros [_ [-> | ->]].
        -- right. left. rewrite decide_True by done. by apply list_elem_of_singleton.
        -- right. right. rewrite decide_True by done. by apply list_elem_of_singleton.
    + split.
      * intros [[Hlt Hpart] | [Hin | Hin]].
        -- split; [lia | done].
        -- case_decide; [apply list_elem_of_singleton in Hin; congruence |].
           by apply elem_of_nil in Hin.
        -- case_decide; [apply list_elem_of_singleton in Hin; congruence |].
           by apply elem_of_nil in Hin.
      * intros [Hlt Hpart]. left. split; [lia | done].
Qed.

Lemma calls_inv_grant gs s : calls_inv s -> calls_inv (grant gs s).
Proof. done. Qed.

(** A profile is rewritten without withdrawing a registration. *)
Lemma calls_inv_profile a p s :
  calls_inv s ->
  (isRegistered (userProfile s a) = true -> isRegistered p = true) ->
  calls_inv (set_userProfile a p s).
Proof.
  intros (Hone & Hout & Hact & Hinv & Hhist) Hkeep.
  assert (forall x, isRegistered (userProfile s x) = true ->
                    isRegistered (userProfile (set_userProfile a p s) x) = true) as Hreg.
  { intros x Hx. unfold userProfile, set_userProfile. simpl. rewrite read_insert.
    destruct (decide (a = x)) as [-> |]; [by apply Hkeep | done]. }
  split; [done |]. split; [done |]. split; [| split; [| done]].
  - intros c Hc. destruct (Hact c Hc). split; by apply Hreg.
  - intros id. destruct (Hinv id) as [Heq | Hfrom]; [by left | right; by apply Hreg].
Qed.

(** An invitation record is written whose sender is registered, or whose
    parties are those of the record it replaces. *)
Lemma calls_inv_invitation id i s :
  calls_inv s ->
  from i = to i \/ isRegistered (userProfile s (from i)) = true ->
  calls_inv (set_callInvitation id i s).
Proof.
  intros (Hone & Hout & Hact & Hinv & Hhist) Hi.
  split; [done |]. split; [done |]. split; [done |]. split; [| done].
  intros id'. unfold callInvitation, set_callInvitation. simpl. rewrite read_insert.
  destruct (decide (id = id')); [done | apply Hinv].
Qed.

(** The record of an active call is rewritten with the same parties. *)
Lemma calls_inv_call c v s :
  calls_inv s ->
  isActive (videoCall s c) = true ->
  initiator v = initiator (videoCall s c) ->
  recipient v = recipient (videoCall s c) ->
  calls_inv (set_videoCall c v s).
Proof.
  intros (Hone & Hout & Hact & Hinv & Hhist) Hc Hi Hr.
  pose proof (in_range_if_active s c Hout Hc) as Hrange.
  assert (forall c', videoCall (set_videoCall c v s) c'
                     = if decide (c = c') then v else videoCall s c') as Hcall.
  { intros c'. unfold videoCall, set_videoCall. simpl. apply read_insert. }
  split; [done |]. split; [| split; [| split; [done |]]].
  - intros c' Hc'. unfold set_videoCall. simpl.
    rewrite lookup_insert_ne by (simpl in *; lia). by apply Hout.
  - intros c'. rewrite Hcall. destruct (decide (c = c')) as [<- |].
    + intros _. rewrite Hi, Hr. by apply Hact.
    + apply Hact.
  - intros u c'. rewrite Hcall. unfold getUserCallHistory in *.
    destruct (decide (c = c')) as [<- |]; [rewrite Hi, Hr |]; apply Hhist.
Qed.

Lemma calls_inv_step tx s s' evs :
  dispatch tx s = Ok (s', evs) -> calls_inv s -> calls_inv s'.
Proof.
  intros Hok Hinv.
  destruct tx as [e call]. unfold dispatch in Hok. simpl in Hok.
  destruct call; try (by eapply calls_inv_accept); function_conditions Hok.
  - by apply calls_inv_grant, calls_inv_profile.
  - by apply calls_inv_grant, calls_inv_profile.
  - apply calls_inv_grant, calls_inv_invitation; [done | by right].
  - apply calls_inv_invitation; [done |]. simpl.
    destruct Hinv as (_ & _ & _ & Hinv & _). apply Hinv.
  - apply andb_true_iff in Hreq1 as [Hact _]. by apply calls_inv_call.
  - by apply calls_inv_grant, calls_inv_call.
  - by apply calls_inv_call.
  - by apply calls_inv_profile.
  - by apply calls_inv_profile.
  - by apply calls_inv_profile.
Qed.

Lemma calls_inv_run e txs : calls_inv (run (deploy e) txs).1.
Proof.
  apply (run_preserves calls_inv); [apply calls_inv_step | apply calls_inv_deploy].
Qed.


(** X2.  On every chain grown from the deployment, an address that is not
    registered can do nothing but register: each of its other transactions
    fails and leaves the chain as it is, with the not-registered error for
    the functions that carry [onlyRegistered] (the call operations fail
    because every participant of an active call is registered). *)
Theorem unregistered_address_can_only_register e0 txs tx :
  let chain := run (deploy e0) txs in
  isUserRegistered (msg_sender (tx_env tx)) chain.1 = false ->
  is_registerUser (tx_call tx) = false ->
  fails (dispatch tx chain.1)
  /\ apply_tx chain tx = chain
  /\ (guarded_by_onlyRegistered (tx_call tx) = true ->
      fails_with (dispatch tx chain.1) "User not registered").
Proof.
  intros chain Hnot Hcall.
  pose proof (calls_inv_run e0 txs) as (_ & _ & Hact & _). fold chain in Hact.
  unfold isUserRegistered in Hnot.
  assert (succeeds (dispatch tx chain.1) = false) as Hfail.
  { destruct (succeeds _) eqn:Hs; [| done].
    apply succeeds_Ok in Hs as [[s' evs] Hok].
    destruct tx as [e call]. simpl in Hnot, Hcall.
    dispatch_cases Hok; try (simpl in Hcall; congruence).
    - apply andb_true_iff in Hreq1 as [Hon _].
      destruct (Hact _ Hon) as [Hi Hr].
      apply orb_true_iff in Hreq0. rewrite !bool_decide_eq_true in Hreq0.
      destruct Hreq0 as [Heq | Heq]; rewrite Heq in Hnot; congruence.
    - destruct (Hact _ Hreq1) as [Hi Hr].
      apply orb_true_iff in Hreq0. rewrite !bool_decide_eq_true in Hreq0.
      destruct Hreq0 as [Heq | Heq]; rewrite Heq in Hnot; congruence.
    - destruct (Hact _ Hreq1) as [Hi Hr].
      apply orb_true_iff in Hreq0. rewrite !bool_decide_eq_true in Hreq0.
      destruct Hreq0 as [Heq | Heq]; rewrite Heq in Hnot; congruence. }
  split; [by apply succeeds_fails |]. split; [by apply apply_tx_revert |].
  intros Hguard. destruct tx as [e call]. simpl in Hnot, Hguard.
  unfold fails_with, dispatch. simpl.
  destruct call; try discriminate; simpl;
    cbv beta zeta delta
      [updateUserStatus inviteToCall acceptCallInvitation declineCallInvitation
       addTrustedContact blockUser unblockUser onlyRegistered];
    by rewrite Hnot.
Qed.

(** X3.  On every chain grown from the deployment, [getUserCallHistory]
    lists exactly the calls the user takes part in: an identifier is in the
    history of [u] if and only if it is at least 1, below [nextCallId], and
    [u] is the initiator or the recipient of that call. *)
Theorem call_history_lists_own_calls e0 txs u c :
  let s := (run (deploy e0) txs).1 in
  c ∈ getUserCallHistory u s
  <-> 1 <= c < nextCallId s
      /\ (u = initiator (videoCall s c) \/ u = recipient (videoCall s c)).
Proof.
  intros s. pose proof (calls_inv_run e0 txs) as (_ & _ & _ & _ & Hhist).
  apply Hhist.
Qed.

Lemma zero_if_unused s c :
  videoCalls s !! c = None -> videoCall s c = zero_VideoCall.
Proof. unfold videoCall, read. by intros ->. Qed.

(** X4.  Call identifiers start at 1, yet the [callExists] modifier lets
    identifier 0 through.  On every chain grown from the deployment the
    record of call 0 is the zero record: [getCallInfo(0)] succeeds and
    returns zeros, and no sender other than the zero address can start,
    signal or end call 0.  An identifier at or above [nextCallId] is refused
    as not existing. *)
Theorem call_zero_is_never_created e0 txs :
  let s := (run (deploy e0) txs).1 in
  1 <= nextCallId s
  /\ getCallInfo 0 s = Ok (0, 0, false, false, 0, 0)
  /\ (forall c, nextCallId s <= c ->
        fails_with (getCallInfo c s) "Call does not exist"
        /\ videoCall s c = zero_VideoCall)
  /\ (forall e d,
        msg_sender e <> 0 ->
        fails_with (startVideoCall e 0 s) "Not a call participant"
        /\ fails_with (updateSignalingData e 0 d s) "Not a call participant"
        /\ fails_with (endVideoCall e 0 s) "Not a call participant").
Proof.
  intros s. pose proof (calls_inv_run e0 txs) as (Hone & Hout & _). fold s in Hone, Hout.
  assert (videoCall s 0 = zero_VideoCall) as Hzero
    by (apply zero_if_unused, Hout; lia).
  split; [done |]. split; [| split].
  - unfold getCallInfo, callExists.
    rewrite (require_true (bool_decide _)) by (apply bool_decide_eq_true; lia).
    simpl. by rewrite Hzero.
  - intros c Hc. split; [| apply zero_if_unused, Hout; lia].
    unfold fails_with, getCallInfo, callExists.
    by rewrite (require_false (bool_decide _)) by (apply bool_decide_eq_false; lia).
  - intros e d He.
    unfold fails_with, startVideoCall, updateSignalingData, endVideoCall,
      callExists, onlyCallParticipant.
    rewrite (require_true (bool_decide _)) by (apply bool_decide_eq_true; lia).
    simpl. rewrite Hzero. simpl.
    rewrite (require_false (bool_decide _ || bool_decide _)); [done |].
    apply orb_false_iff. by rewrite bool_decide_eq_false.
Qed.


(** *** Blocking and trusting *)


Lemma trusted_step a c tx s s' evs :
  dispatch tx s = Ok (s', evs) ->
  isTrustedContact a c s = true -> isTrustedContact a c s' = true.
Proof.
  intros Hok Ht. destruct tx as [e call]. unfold_views.
  dispatch_cases Hok; unfold_storage; try done;
    rewrite read_insert; destruct (decide (msg_sender e = a)) as [<- |];
    simpl; try done.
  rewrite read_insert. by destruct (decide (_contact = c)).
Qed.


(** X6.  [unblockUser(u)] lifts the sender's block of [u] and nothing else:
    it emits no event, leaves every other pair's block as it was, and a
    registered [u] other than the sender can invite the sender again.  It
    succeeds whether or not [u] was blocked. *)
Theorem unblockUser_lifts_one_block e u s :
  isUserRegistered (msg_sender e) s = true ->
  exists s',
    unblockUser e u s = Ok (s', [])
    /\ isUserBlocked (msg_sender e) u s' = false
    /\ (forall b v, b <> msg_sender e \/ v <> u ->
          isUserBlocked b v s' = isUserBlocked b v s)
    /\ (forall a, isUserRegistered a s' = isUserRegistered a s)
    /\ (forall e' k,
          msg_sender e' = u -> u <> msg_sender e -> isUserRegistered u s = true ->
          succeeds (inviteToCall e' (msg_sender e) k s') = true).
Proof.
  intros Hreg. unfold unblockUser, onlyRegistered.
  unfold isUserRegistered in Hreg. rewrite (require_true _ _ Hreg). simpl.
  eexists. split; [reflexivity |].
  assert (forall b v,
            isUserBlocked b v
              (set_userProfile (msg_sender e)
                 (mkUserProfile (isRegistered (userProfile s (msg_sender e)))
                    (encryptedStatus (userProfile s (msg_sender e)))
                    (encryptedPublicKey (userProfile s (msg_sender e)))
                    (<[u := false]> (blockedUsers (userProfile s (msg_sender e))))
                    (trustedContacts (userProfile s (msg_sender e)))) s)
            = if decide (b = msg_sender e /\ v = u) then false
              else isUserBlocked b v s) as Hblocked.
  { intros b v. unfold_views. unfold_storage. rewrite read_insert.
    destruct (decide (msg_sender e = b)) as [<- |]; simpl.
    - rewrite read_insert. destruct (decide (u = v)) as [<- |].
      + by rewrite decide_True.
      + rewrite decide_False; [done | intros [_ ?]; congruence].
    - rewrite decide_False; [done | intros [? _]; congruence]. }
  assert (forall a,
            isUserRegistered a
              (set_userProfile (msg_sender e)
                 (mkUserProfile (isRegistered (userProfile s (msg_sender e)))
                    (encryptedStatus (userProfile s (msg_sender e)))
                    (encryptedPublicKey (userProfile s (msg_sender e)))
                    (<[u := false]> (blockedUsers (userProfile s (msg_sender e))))
                    (trustedContacts (userProfile s (msg_sender e)))) s)
            = isUserRegistered a s) as Hsame.
  { intros a. unfold_views. unfold_storage. rewrite read_insert.
    by destruct (decide (msg_sender e = a)) as [<- |]. }
  split; [by rewrite Hblocked, decide_True |].
  split; [| split; [done |]].
  - intros b v Hother. rewrite Hblocked, decide_False; [done |].
    intros [? ?]. by destruct Hother.
  - intros e' k He' Hne Hu.
    specialize (Hblocked (msg_sender e) u). rewrite decide_True in Hblocked by done.
    pose proof (Hsame u) as Hu'. pose proof (Hsame (msg_sender e)) as Hb'.
    unfold isUserRegistered, isUserBlocked in *.
    unfold inviteToCall, onlyRegistered.
    rewrite He', (require_true (isRegistered _)) by congruence. simpl.
    rewrite (require_true (negb (bool_decide _)))
      by (apply negb_true_iff, bool_decide_eq_false; congruence).
    simpl. rewrite (require_true (isRegistered _)) by congruence. simpl.
    by rewrite Hblocked.
Qed.

(** X7.  [addTrustedContact(c)] needs a registered contact other than the
    sender, and the trust it records is never withdrawn: whatever
    transactions follow, blocking the contact included,
    [isTrustedContact(sender, c)] stays true. *)
Theorem trusted_contact_is_never_removed e c s s' evs log txs :
  addTrustedContact e c s = Ok (s', evs) ->
  let later := run (s', log) txs in
  c <> msg_sender e
  /\ isUserRegistered c s = true
  /\ evs = [ContactAdded (msg_sender e) c true]
  /\ isTrustedContact (msg_sender e) c later.1 = true.
Proof.
  intros Hok later.
  assert (isTrustedContact (msg_sender e) c s' = true) as Hnow.
  { unfold addTrustedContact, onlyRegistered in Hok. invert_ok.
    unfold_views. unfold_storage. rewrite read_insert, decide_True by done.
    simpl. by rewrite read_insert, decide_True. }
  assert (isTrustedContact (msg_sender e) c later.1 = true) as Hlater.
  { apply (run_preserves (fun s => isTrustedContact (msg_sender e) c s = true));
      [| done].
    intros tx s0 s0' evs0. apply trusted_step. }
  unfold addTrustedContact, onlyRegistered in Hok. invert_ok.
  apply negb_true_iff, bool_decide_eq_false in Hreq0.
  done.
Qed.

End Users.

Section Calls.
Context `{Hash}.

(** *** Call records over time *)

(** A call that exists and is not active is written by nothing. *)
Lemma inactive_call_step c tx s s' evs :
  dispatch tx s = Ok (s', evs) ->
  c < nextCallId s -> isActive (videoCall s c) = false ->
  c < nextCallId s' /\ videoCall s' c = videoCall s c.
Proof.
  intros Hok Hlt Hoff. destruct tx as [e call].
  dispatch_cases Hok; unfold_storage; try done.
  - split; [lia |]. rewrite read_insert, decide_False by lia. done.
  - apply andb_true_iff in Hreq1 as [Hon _].
    rewrite read_insert. destruct (decide (_callId = c)) as [-> |]; [congruence | done].
  - rewrite read_insert. destruct (decide (_callId = c)) as [-> |]; [congruence | done].
  - rewrite read_insert. destruct (decide (_callId = c)) as [-> |]; [congruence | done].
Qed.

(** The parties and the key of a call that exists are written by nothing. *)
Lemma call_parties_step c tx s s' evs :
  dispatch tx s = Ok (s', evs) ->
  c < nextCallId s ->
  c < nextCallId s'
  /\ initiator (videoCall s' c) = initiator (videoCall s c)
  /\ recipient (videoCall s' c) = recipient (videoCall s c)
  /\ encryptedCallKey (videoCall s' c) = encryptedCallKey (videoCall s c).
Proof.
  intros Hok Hlt. destruct tx as [e call].
  dispatch_cases Hok; unfold_storage; try done.
  - split; [lia |]. rewrite read_insert, decide_False by lia. done.
  - rewrite read_insert. by destruct (decide (_callId = c)) as [-> |].
  - rewrite read_insert. by destruct (decide (_callId = c)) as [-> |].
  - rewrite read_insert. by destruct (decide (_callId = c)) as [-> |].
Qed.

Lemma inactive_blocks_calls e c d s :
  isActive (videoCall s c) = false ->
  fails (startVideoCall e c s)
  /\ fails (updateSignalingData e c d s)
  /\ fails (endVideoCall e c s)
  /\ (c < nextCallId s ->
      msg_sender e = initiator (videoCall s c) \/ msg_sender e = recipient (videoCall s c) ->
      fails_with (startVideoCall e c s) "Call not ready or already connected"
      /\ fails_with (updateSignalingData e c d s) "Call not active"
      /\ fails_with (endVideoCall e c s) "Call already ended").
Proof.
  intros Hoff.
  split; [| split; [| split]].
  - apply succeeds_fails. destruct (succeeds _) eqn:Hs; [| done].
    apply succeeds_Ok in Hs as [[s' evs] Hok].
    apply startVideoCall_ok in Hok as ((_ & _ & Hon) & _). congruence.
  - apply succeeds_fails. destruct (succeeds _) eqn:Hs; [| done].
    apply succeeds_Ok in Hs as [[s' evs] Hok].
    apply updateSignalingData_ok in Hok as (_ & _ & Hon). congruence.
  - apply succeeds_fails. destruct (succeeds _) eqn:Hs; [| done].
    apply succeeds_Ok in Hs as [[s' evs] Hok].
    apply endVideoCall_ok in Hok as ((_ & _ & Hon) & _). congruence.
  - intros Hlt Hpart.
    unfold fails_with, startVideoCall, updateSignalingData, endVideoCall,
      callExists, onlyCallParticipant.
    rewrite (require_true (bool_decide _)) by by apply bool_decide_eq_true.
    simpl.
    rewrite (require_true (_ || _))
      by (apply orb_true_iff; by rewrite !bool_decide_eq_true).
    simpl. by rewrite Hoff.
Qed.

(** X8.  An ended call is final.  After a successful [endVideoCall] the
    record of the call never changes again, whatever transactions follow:
    it stays inactive with the end time of that transaction, and every later
    [startVideoCall], [updateSignalingData] and [endVideoCall] for it fails;
    a participant gets the not-ready, not-active and already-ended errors. *)
Theorem ended_call_is_final e c s s' evs log txs :
  endVideoCall e c s = Ok (s', evs) ->
  let later := run (s', log) txs in
  videoCall later.1 c = videoCall s' c
  /\ isActive (videoCall later.1 c) = false
  /\ endTime (videoCall later.1 c) = block_timestamp e
  /\ (forall e' d,
        fails (startVideoCall e' c later.1)
        /\ fails (updateSignalingData e' c d later.1)
        /\ fails (endVideoCall e' c later.1)
        /\ (msg_sender e' = initiator (videoCall s c)
            \/ msg_sender e' = recipient (videoCall s c) ->
            fails_with (startVideoCall e' c later.1) "Call not ready or already connected"
            /\ fails_with (updateSignalingData e' c d later.1) "Call not active"
            /\ fails_with (endVideoCall e' c later.1) "Call already ended")).
Proof.
  intros Hok later.
  assert (c < nextCallId s' /\ isActive (videoCall s' c) = false
          /\ endTime (videoCall s' c) = block_timestamp e
          /\ initiator (videoCall s' c) = initiator (videoCall s c)
          /\ recipient (videoCall s' c) = recipient (videoCall s c))
    as (Hlt & Hoff & Hend & Hi & Hr).
  { unfold endVideoCall, callExists, onlyCallParticipant in Hok. invert_ok.
    apply bool_decide_eq_true in Hreq.
    unfold_storage. by rewrite read_insert, decide_True. }
  assert (c < nextCallId later.1 /\ videoCall later.1 c = videoCall s' c)
    as [Hlt' Hsame].
  { apply (run_preserves
             (fun s0 => c < nextCallId s0 /\ videoCall s0 c = videoCall s' c));
      [| done].
    intros tx s0 s0' evs0 Hd [Hlt0 Heq0].
    destruct (inactive_call_step c _ _ _ _ Hd Hlt0) as [? Hkeep]; [congruence |].
    split; [done | congruence]. }
  split; [done |]. split; [congruence |]. split; [congruence |].
  intros e' d.
  destruct (inactive_blocks_calls e' c d later.1) as (H1 & H2 & H3 & Hwhy);
    [congruence |].
  split; [done |]. split; [done |]. split; [done |].
  intros Hpart. apply Hwhy; [done |]. rewrite Hsame, Hi, Hr. done.
Qed.

(** X9.  The parties of a call are fixed when it is created: over every
    sequence of transactions the initiator, the recipient and the encrypted
    call key of a call below [nextCallId] stay what they are, and the
    identifier stays below [nextCallId]. *)
Theorem call_parties_never_change c chain txs :
  c < nextCallId chain.1 ->
  let later := run chain txs in
  c < nextCallId later.1
  /\ initiator (videoCall later.1 c) = initiator (videoCall chain.1 c)
  /\ recipient (videoCall later.1 c) = recipient (videoCall chain.1 c)
  /\ encryptedCallKey (videoCall later.1 c) = encryptedCallKey (videoCall chain.1 c).
Proof.
  intros Hlt later.
  apply (run_preserves
           (fun s0 => c < nextCallId s0
                      /\ initiator (videoCall s0 c) = initiator (videoCall chain.1 c)
                      /\ recipient (videoCall s0 c) = recipient (videoCall chain.1 c)
                      /\ encryptedCallKey (videoCall s0 c)
                         = encryptedCallKey (videoCall chain.1 c)));
    [| done].
  intros tx s0 s0' evs0 Hd (Hlt0 & Hi & Hr & Hk).
  destruct (call_parties_step c _ _ _ _ Hd Hlt0) as (? & Hi' & Hr' & Hk').
  split; [done |]. split; [congruence |]. split; congruence.
Qed.


(** *** The log against the storage *)

Lemma ids_below_succ n : 1 <= n -> ids_below (n + 1) = ids_below n ++ [n].
Proof.
  intros Hn. unfold ids_below.
  replace (Z.to_nat (n + 1 - 1)) with (S (Z.to_nat (n - 1))) by lia.
  rewrite seq_S, map_app. simpl. f_equal. f_equal. lia.
Qed.

Lemma elem_of_ids_below n c : c ∈ ids_below n <-> 1 <= c < n.
Proof.
  unfold ids_below. rewrite list_elem_of_fmap. split.
  - intros (k & -> & Hk). apply elem_of_seq in Hk. lia.
  - intros Hc. exists (Z.to_nat c). split; [lia |]. apply elem_of_seq. lia.
Qed.

Lemma accepted_ids_app log evs :
  accepted_ids (log ++ evs) = accepted_ids log ++ accepted_ids evs.
Proof. apply omap_app. Qed.

Lemma ended_app c log evs : ended c (log ++ evs) = (ended c log + ended c evs)%nat.
Proof. unfold ended. by rewrite List.filter_app, length_app. Qed.

Lemma ended_CallEnded c c' d :
  ended c [CallEnded c' d] = if decide (c' = c) then 1%nat else 0%nat.
Proof. unfold ended. simpl. by repeat case_decide; case_bool_decide. Qed.

(** What one successful transaction does to the activity of the calls and
    which events it emits: it creates the next call, or ends an active one,
    or does neither. *)
Lemma dispatch_activity tx s s' evs :
  dispatch tx s = Ok (s', evs) ->
  (nextCallId s' = nextCallId s + 1
   /\ accepted_ids evs = [nextCallId s]
   /\ forall c, ended c evs = 0%nat
                /\ isActive (videoCall s' c)
                   = if decide (c = nextCallId s) then true else isActive (videoCall s c))
  \/ (exists c0,
        nextCallId s' = nextCallId s
        /\ accepted_ids evs = []
        /\ c0 < nextCallId s
        /\ isActive (videoCall s c0) = true
        /\ forall c, ended c evs = (if decide (c0 = c) then 1%nat else 0%nat)
                     /\ isActive (videoCall s' c)
                        = if decide (c0 = c) then false else isActive (videoCall s c))
  \/ (nextCallId s' = nextCallId s
      /\ accepted_ids evs = []
      /\ forall c, ended c evs = 0%nat
                   /\ isActive (videoCall s' c) = isActive (videoCall s c)).
Proof.
  intros Hok. destruct tx as [e call].
  dispatch_cases Hok; unfold_storage.
  1-3, 5, 9-11: by right; right.
  - left. split; [done |]. split; [done |]. intros c. split; [done |].
    rewrite read_insert.
    destruct (decide (nextCallId s = c)) as [<- |].
    + by rewrite decide_True.
    + by rewrite decide_False.
  - right. right. split; [done |]. split; [done |]. intros c. split; [done |].
    rewrite read_insert. by destruct (decide (_callId = c)) as [<- |].
  - right. right. split; [done |]. split; [done |]. intros c. split; [done |].
    rewrite read_insert. by destruct (decide (_callId = c)) as [<- |].
  - right. left. exists _callId.
    apply bool_decide_eq_true in Hreq.
    split; [done |]. split; [done |]. split; [done |]. split; [done |].
    intros c. rewrite ended_CallEnded, read_insert.
    by destruct (decide (_callId = c)).
Qed.

Lemma log_inv_step chain tx :
  calls_inv chain.1 -> log_inv chain -> log_inv (apply_tx chain tx).
Proof.
  intros (Hone & _) [Hids Hlog]. unfold apply_tx.
  destruct (dispatch tx chain.1) as [[s' evs] |] eqn:Hd; [| done].
  unfold log_inv. simpl. rewrite accepted_ids_app, Hids.
  destruct (dispatch_activity _ _ _ _ Hd)
    as [(Hnext & Hacc & Hall) | [(c0 & Hnext & Hacc & Hlt & Hon & Hall)
                                | (Hnext & Hacc & Hall)]];
    rewrite Hnext, Hacc.
  - split; [by rewrite ids_below_succ |].
    intros c. destruct (Hall c) as [He Ha]. destruct (Hlog c) as (H1 & H2 & H3 & H4).
    rewrite ended_app, He, Ha, Nat.add_0_r.
    destruct (decide (c = nextCallId chain.1)) as [-> |].
    + rewrite H3 by lia. repeat split; try done; lia.
    + repeat split; try done.
      * intros Hc. apply H3. lia.
      * intros Hz Hc. apply H4; [done | lia].
  - split; [by rewrite app_nil_r |].
    intros c. destruct (Hall c) as [He Ha]. destruct (Hlog c) as (H1 & H2 & H3 & H4).
    rewrite ended_app, He, Ha.
    destruct (decide (c0 = c)) as [<- |].
    + rewrite (H2 Hon). repeat split; try done; lia.
    + rewrite Nat.add_0_r. done.
  - split; [by rewrite app_nil_r |].
    intros c. destruct (Hall c) as [He Ha]. destruct (Hlog c) as (H1 & H2 & H3 & H4).
    by rewrite ended_app, He, Ha, Nat.add_0_r.
Qed.

Lemma log_inv_run e txs : log_inv (run (deploy e) txs).
Proof.
  assert (forall txs chain,
            calls_inv chain.1 -> log_inv chain -> log_inv (run chain txs)) as Hrun.
  { clear txs. intros txs. induction txs as [| tx txs IH]; intros chain Hc Hl; [done |].
    apply IH; [| by apply log_inv_step].
    unfold apply_tx. destruct (dispatch tx chain.1) as [[s' evs] |] eqn:Hd; [| done].
    by eapply calls_inv_step. }
  apply Hrun; [apply calls_inv_deploy |].
  split; [done |]. intros c. unfold ended. simpl.
  repeat split; intros; simpl in *; try done; lia.
Qed.

(** X10.  On every chain grown from the deployment, [endVideoCall] succeeds
    at most once per call: the log holds at most one [CallEnded] event for
    an identifier, and a call between 1 and [nextCallId] is active exactly
    when the log holds none for it. *)
Theorem call_ends_at_most_once e0 txs c :
  let chain := run (deploy e0) txs in
  (ended c chain.2 <= 1)%nat
  /\ (1 <= c < nextCallId chain.1 ->
      (isActive (videoCall chain.1 c) = true <-> ended c chain.2 = 0%nat))
  /\ (nextCallId chain.1 <= c -> ended c chain.2 = 0%nat)
  /\ (forall e s' evs,
        endVideoCall e c chain.1 = Ok (s', evs) ->
        ended c chain.2 = 0%nat /\ ended c (chain.2 ++ evs) = 1%nat).
Proof.
  intros chain. destruct (log_inv_run e0 txs) as [_ Hlog]. fold chain in Hlog.
  destruct (Hlog c) as (H1 & H2 & H3 & H4).
  split; [done |]. split; [| split; [done |]].
  - intros Hc. split; [done | by intros; apply H4].
  - intros e s' evs Hok.
    pose proof (endVideoCall_ok _ _ _ _ _ Hok) as [(_ & _ & Hon) _].
    unfold endVideoCall, callExists, onlyCallParticipant in Hok. invert_ok.
    rewrite ended_app, ended_CallEnded, decide_True, (H2 Hon) by done. done.
Qed.

(** X11.  Call identifiers are handed out consecutively from 1 in the order
    in which invitations are accepted: on every chain grown from the
    deployment, the identifiers of the [CallAccepted] events of the log,
    oldest first, are [1, 2, ..., nextCallId - 1]; so [nextCallId - 1] is the
    number of calls created and each identifier is accepted once. *)
Theorem call_ids_are_consecutive e0 txs :
  let chain := run (deploy e0) txs in
  accepted_ids chain.2 = ids_below (nextCallId chain.1)
  /\ Z.of_nat (length (accepted_ids chain.2)) = nextCallId chain.1 - 1
  /\ NoDup (accepted_ids chain.2)
  /\ (forall c, c ∈ accepted_ids chain.2 <-> 1 <= c < nextCallId chain.1).
Proof.
  intros chain. destruct (log_inv_run e0 txs) as [Hids _]. fold chain in Hids.
  pose proof (calls_inv_run e0 txs) as (Hone & _). fold chain in Hone.
  rewrite Hids. split; [done |]. split; [| split].
  - unfold ids_below. rewrite length_map, length_seq. lia.
  - unfold ids_below. apply NoDup_fmap_2; [| apply NoDup_seq].
    intros x y. lia.
  - intros c. apply elem_of_ids_below.
Qed.


(** *** Durations *)

(** X12.  The duration in a [CallEnded] event is the end timestamp minus the
    stored start time, which [startVideoCall] resets to its own timestamp:
    a call that was started is measured from its start, not from the
    acceptance.  [getCallInfo] then shows the call inactive with that end
    time.  If the block timestamp lies before the start time, the
    subtraction panics and nothing is written. *)
Theorem call_duration_is_measured_from_start e c s s' evs :
  endVideoCall e c s = Ok (s', evs) ->
  startTime (videoCall s c) <= block_timestamp e
  /\ evs = [CallEnded c (block_timestamp e - startTime (videoCall s c))]
  /\ getCallInfo c s'
     = Ok (initiator (videoCall s c), recipient (videoCall s c), false,
           isConnected (videoCall s c), startTime (videoCall s c), block_timestamp e)
  /\ (forall e0 s0 evs0,
        startVideoCall e0 c s0 = Ok (s, evs0) ->
        startTime (videoCall s c) = block_timestamp e0
        /\ evs = [CallEnded c (block_timestamp e - block_timestamp e0)])
  /\ (forall e' s0,
        on_active_call e' c s0 ->
        block_timestamp e' < startTime (videoCall s0 c) ->
        endVideoCall e' c s0 = Revert (Panic 17)).
Proof.
  intros Hok.
  assert (startTime (videoCall s c) <= block_timestamp e
          /\ evs = [CallEnded c (block_timestamp e - startTime (videoCall s c))]
          /\ c < nextCallId s'
          /\ videoCall s' c
             = mkVideoCall (initiator (videoCall s c)) (recipient (videoCall s c))
                 (encryptedCallKey (videoCall s c))
                 (encryptedSignalingData (videoCall s c)) false
                 (isConnected (videoCall s c)) (startTime (videoCall s c))
                 (block_timestamp e) (encryptedMetadata (videoCall s c)))
    as (Hle & Hevs & Hlt & Hrec).
  { unfold endVideoCall, callExists, onlyCallParticipant in Hok. invert_ok.
    apply bool_decide_eq_true in Hreq. simpl in *.
    unfold_storage. by rewrite read_insert, decide_True. }
  split; [done |]. split; [done |]. split; [| split].
  - unfold getCallInfo, callExists.
    rewrite (require_true (bool_decide _)) by by apply bool_decide_eq_true.
    simpl. by rewrite Hrec.
  - intros e0 s0 evs0 Hstart.
    assert (startTime (videoCall s c) = block_timestamp e0) as Hst.
    { unfold startVideoCall, callExists, onlyCallParticipant in Hstart. invert_ok.
      unfold_storage. by rewrite read_insert, decide_True. }
    split; [done | by rewrite <- Hst].
  - intros e' s0 (Hex & Hpart & Hon) Hbefore.
    unfold endVideoCall, callExists, onlyCallParticipant.
    rewrite (require_true (bool_decide _)) by by apply bool_decide_eq_true.
    simpl.
    rewrite (require_true (_ || _))
      by (apply orb_true_iff; by rewrite !bool_decide_eq_true).
    simpl. rewrite Hon. simpl. unfold checked_sub. simpl.
    by rewrite decide_False by lia.
Qed.

(** *** Answering an invitation *)

(** X13.  Only the registered recipient of an invitation can answer it: a
    successful accept or decline has a registered sender who is the
    invitation's [to]; any other registered sender gets the
    not-your-invitation error.  An identifier under which no invitation was
    ever stored reads as the zero record, so no sender but the zero address
    can answer it. *)
Theorem only_the_recipient_answers id call e s :
  answers id call ->
  (succeeds (dispatch (mkTx e call) s) = true ->
     isUserRegistered (msg_sender e) s = true
     /\ to (callInvitation s id) = msg_sender e
     /\ responded (callInvitation s id) = false)
  /\ (isUserRegistered (msg_sender e) s = true ->
      to (callInvitation s id) <> msg_sender e ->
      fails_with (dispatch (mkTx e call) s) "Not your invitation")
  /\ (callInvitations s !! id = None ->
      msg_sender e <> 0 ->
      fails (dispatch (mkTx e call) s)
      /\ getInvitationInfo id s = (0, 0, 0, false, false)).
Proof.
  intros Hcall.
  assert (succeeds (dispatch (mkTx e call) s) = true ->
          isUserRegistered (msg_sender e) s = true
          /\ to (callInvitation s id) = msg_sender e
          /\ responded (callInvitation s id) = false) as Hneeds.
  { intros Hs. apply succeeds_Ok in Hs as [[s' evs] Hok].
    unfold isUserRegistered.
    destruct Hcall as [(k & d & ->) | ->].
    - pose proof (acceptCallInvitation_ok _ _ _ _ _ _ _ Hok) as [Hno _].
      function_conditions Hok.
      by apply bool_decide_eq_true in Hreq0.
    - pose proof (declineCallInvitation_ok _ _ _ _ _ Hok) as [Hno _].
      function_conditions Hok.
      by apply bool_decide_eq_true in Hreq0. }
  split; [done |]. split.
  - intros Hreg Hto. unfold isUserRegistered in Hreg.
    destruct Hcall as [(k & d & ->) | ->];
      unfold fails_with, dispatch; simpl;
      unfold acceptCallInvitation, declineCallInvitation, onlyRegistered;
      rewrite (require_true _ _ Hreg); simpl;
      by rewrite (require_false (bool_decide _)) by by apply bool_decide_eq_false.
  - intros Hnone He.
    assert (callInvitation s id = zero_CallInvitation) as Hzero.
    { unfold callInvitation, read. by rewrite Hnone. }
    split; [| unfold getInvitationInfo; by rewrite Hzero].
    apply succeeds_fails. destruct (succeeds _) eqn:Hs; [| done].
    destruct (Hneeds eq_refl) as (_ & Hto & _). rewrite Hzero in Hto.
    simpl in Hto. congruence.
Qed.

(** X14.  A successful [acceptCallInvitation] creates the call numbered
    [nextCallId]: it emits [CallAccepted] with the inviter, the sender and
    that identifier, [getCallInfo] shows the call active and not connected
    from the block timestamp, the identifier is appended to both parties'
    histories, and either party can start the call at once. *)
Theorem accepted_invitation_creates_a_call e id k d s s' evs :
  acceptCallInvitation e id k d s = Ok (s', evs) ->
  let inviter := from (callInvitation s id) in
  let c := nextCallId s in
  evs = [CallAccepted inviter (msg_sender e) c]
  /\ nextCallId s' = c + 1
  /\ getCallInfo c s' = Ok (inviter, msg_sender e, true, false, block_timestamp e, 0)
  /\ getInvitationInfo id s'
     = (inviter, msg_sender e, timestamp (callInvitation s id), true, false)
  /\ (forall u, getUserCallHistory u s'
                = getUserCallHistory u s
                  ++ (if decide (inviter = u) then [c] else [])
                  ++ (if decide (msg_sender e = u) then [c] else []))
  /\ (forall e', msg_sender e' = inviter \/ msg_sender e' = msg_sender e ->
        succeeds (startVideoCall e' c s') = true).
Proof.
  intros Hok inviter c.
  pose proof (acceptCallInvitation_ok _ _ _ _ _ _ _ Hok) as (Hno & _ & _).
  destruct (acceptCallInvitation_writes _ _ _ _ _ _ _ Hok)
    as (_ & Hto & Hnext & Hcalls & _ & Hinvs & Hpush & Hevs).
  fold inviter c in Hnext, Hcalls, Hinvs, Hpush, Hevs.
  assert (videoCall s' c
          = mkVideoCall inviter (msg_sender e) (asEuint64 k) (asEuint32 d) true false
              (block_timestamp e) 0 (asEuint32 0)) as Hcall.
  { unfold videoCall. rewrite Hcalls, read_insert, decide_True by done. done. }
  apply orb_false_iff in Hno as [_ Hdec].
  split; [done |]. split; [done |]. split; [| split; [| split; [done |]]].
  - unfold getCallInfo, callExists.
    rewrite (require_true (bool_decide _)) by (apply bool_decide_eq_true; lia).
    simpl. by rewrite Hcall.
  - unfold getInvitationInfo, callInvitation at 1 2 3 4 5.
    rewrite Hinvs, read_insert, decide_True by done. simpl.
    by rewrite Hto, Hdec.
  - intros e' He'. unfold startVideoCall, callExists, onlyCallParticipant.
    rewrite (require_true (bool_decide _)) by (apply bool_decide_eq_true; lia).
    simpl. rewrite Hcall. simpl.
    rewrite (require_true (_ || _))
      by (apply orb_true_iff; by rewrite !bool_decide_eq_true).
    done.
Qed.

End Calls.

(** *** The further properties on the concrete chain *)

(** Alice stays registered through Bob's registration and cannot register
    again. *)
Lemma registration_is_permanent_witness :
  fails_with (registerUser (mkEnv alice 500) 9 9
                (run (H := packed) (alice_registered_chain.1, alice_registered_chain.2)
                   [mkTx (mkEnv bob 100) (call_registerUser 2 1)]).1)
             "User already registered".
Proof.
  assert (registerUser (mkEnv alice 100) 1 1 (deploy deployer).1
          = Ok (alice_registered_chain.1, [UserRegistered alice])) as Hok
    by (vm_compute; reflexivity).
  destruct (registration_is_permanent (H := packed) _ _ _ _ _ _
              alice_registered_chain.2 [mkTx (mkEnv bob 100) (call_registerUser 2 1)] Hok)
    as (_ & _ & _ & Hagain & _).
  by apply Hagain.
Defined.

(** An address that never registered cannot invite Bob. *)
Lemma unregistered_address_witness :
  fails_with (dispatch (H := packed) (mkTx (mkEnv 40 500) (call_inviteToCall bob 1))
                (run (H := packed) (deploy deployer) accepted_txs).1)
             "User not registered".
Proof.
  assert (isUserRegistered 40 (run (H := packed) (deploy deployer) accepted_txs).1 = false)
    as Hnot by (vm_compute; reflexivity).
  destruct (unregistered_address_can_only_register (H := packed) deployer accepted_txs
              (mkTx (mkEnv 40 500) (call_inviteToCall bob 1)) Hnot eq_refl)
    as (_ & _ & Hwhy).
  by apply Hwhy.
Defined.


(** Bob lifts his block of Carol. *)
Lemma unblockUser_witness :
  exists s',
    unblockUser (mkEnv bob 160) carol blocked_chain.1 = Ok (s', [])
    /\ isUserBlocked bob carol s' = false.
Proof.
  assert (isUserRegistered bob blocked_chain.1 = true) as Hreg
    by (vm_compute; reflexivity).
  destruct (unblockUser_lifts_one_block (H := packed) (mkEnv bob 160) carol
              blocked_chain.1 Hreg)
    as (s' & Hok & Hfree & _).
  by exists s'.
Defined.

(** Alice's trust in Bob survives her blocking him. *)
Lemma trusted_contact_witness :
  isTrustedContact alice bob
    (run (H := packed) (trusted_chain.1, trusted_chain.2)
       [mkTx (mkEnv alice 160) (call_blockUser bob)]).1 = true.
Proof.
  assert (addTrustedContact (mkEnv alice 150) bob registered_chain.1
          = Ok (trusted_chain.1, [ContactAdded alice bob true])) as Hok
    by (vm_compute; reflexivity).
  destruct (trusted_contact_is_never_removed (H := packed) _ _ _ _ _ trusted_chain.2
              [mkTx (mkEnv alice 160) (call_blockUser bob)] Hok)
    as (_ & _ & _ & Htrust).
  exact Htrust.
Defined.

(** Once Alice has ended call 1, Bob can neither end nor restart it. *)
Lemma ended_call_witness :
  fails_with (endVideoCall (mkEnv bob 500) 1
                (run (H := packed) (ended_chain.1, ended_chain.2)
                   [mkTx (mkEnv bob 450) (call_updateUserStatus 2)]).1)
             "Call already ended".
Proof.
  assert (endVideoCall (mkEnv alice 400) 1 started_chain.1
          = Ok (ended_chain.1, [CallEnded 1 100])) as Hok
    by (vm_compute; reflexivity).
  destruct (ended_call_is_final (H := packed) _ _ _ _ _ ended_chain.2
              [mkTx (mkEnv bob 450) (call_updateUserStatus 2)] Hok)
    as (_ & _ & _ & Hlater).
  destruct (Hlater (mkEnv bob 500) 0) as (_ & _ & _ & Hwhy).
  apply Hwhy. right. vm_compute. reflexivity.
Defined.

(** Call 1 keeps Alice as its initiator through its start. *)
Lemma call_parties_witness :
  initiator (videoCall (run (H := packed) accepted_chain [start_tx]).1 1)
  = initiator (videoCall accepted_chain.1 1).
Proof.
  assert (1 < nextCallId accepted_chain.1) as Hlt by (vm_compute; reflexivity).
  destruct (call_parties_never_change (H := packed) 1 accepted_chain [start_tx] Hlt)
    as (_ & Hi & _).
  exact Hi.
Defined.

(** Call 1 was accepted at 200, started at 300 and ended at 400: the
    event that ends it carries the duration from its start. *)
Lemma call_duration_witness :
  startTime (videoCall started_chain.1 1) = block_timestamp (mkEnv bob 300)
  /\ [CallEnded 1 100]
     = [CallEnded 1 (block_timestamp (mkEnv alice 400) - block_timestamp (mkEnv bob 300))].
Proof.
  assert (endVideoCall (mkEnv alice 400) 1 started_chain.1
          = Ok (ended_chain.1, [CallEnded 1 100])) as Hok
    by (vm_compute; reflexivity).
  assert (startVideoCall (mkEnv bob 300) 1 accepted_chain.1
          = Ok (started_chain.1, [CallStarted 1 alice bob])) as Hstart
    by (vm_compute; reflexivity).
  destruct (call_duration_is_measured_from_start _ _ _ _ _ Hok)
    as (_ & _ & _ & Hfrom & _).
  destruct (Hfrom _ _ _ Hstart) as [Hst Hevs]. split; [exact Hst | exact Hevs].
Defined.

(** Carol cannot decline the invitation that Alice sent to Bob. *)
Lemma only_the_recipient_witness :
  fails_with (dispatch (H := packed)
                (mkTx (mkEnv carol 210) (call_declineCallInvitation invite_1))
                invited_chain.1)
             "Not your invitation".
Proof.
  assert (answers invite_1 (call_declineCallInvitation invite_1)) as Hcall by by right.
  destruct (only_the_recipient_answers (H := packed) invite_1 _ (mkEnv carol 210)
              invited_chain.1 Hcall) as (_ & Hwhy & _).
  apply Hwhy; vm_compute; [reflexivity | discriminate].
Defined.

(** Bob's acceptance creates call 1, which Alice can start. *)
Lemma accepted_invitation_witness :
  succeeds (startVideoCall (mkEnv alice 250) (nextCallId invited_chain.1)
              accepted_chain.1) = true.
Proof.
  assert (acceptCallInvitation (mkEnv bob 200) invite_1 6 7 invited_chain.1
          = Ok (accepted_chain.1, [CallAccepted alice bob 1])) as Hok
    by (vm_compute; reflexivity).
  destruct (accepted_invitation_creates_a_call _ _ _ _ _ _ _ Hok)
    as (_ & _ & _ & _ & _ & Hstart).
  apply Hstart. left. vm_compute. reflexivity.
Defined.

End LedgerProofs.

(** ** Properties of the call coordinator *)

Module CoordinatorProofs.
Import Coordinator.

(** *** Strings *)

Lemma pretty_N_go_nonempty (x : N) (s : string) :
  s ≠ EmptyString -> pretty_N_go x s ≠ EmptyString.
Proof.
  revert s. induction (N.lt_wf_0 x) as [x _ IH]; intros s Hs.
  destruct (decide (x = 0%N)) as [-> | Hx].
  - by rewrite pretty_N_go_0.
  - rewrite pretty_N_go_step by lia.
    apply IH; [apply N.div_lt; lia | done].
Qed.

Lemma toString_truthy callId : truthy (Some (toString callId)) = true.
Proof.
  assert (toString callId ≠ EmptyString) as Hne.
  { unfold toString, pretty, pretty_N. case_decide; [done |].
    rewrite pretty_N_go_step by lia. by apply pretty_N_go_nonempty. }
  simpl. by destruct (toString callId).
Qed.

Lemma truthy_is_Some x : truthy x = true -> is_Some x.
Proof. destruct x; [eauto | discriminate]. Qed.

Lemma eqb_self (w : World) address :
  is_self w address ->
  String.eqb (toLowerCase address) (toLowerCase (userAddress (app w))) = true.
Proof. unfold is_self. intros ->. apply String.eqb_refl. Qed.

Lemma eqb_not_self (w : World) address :
  ~ is_self w address ->
  String.eqb (toLowerCase address) (toLowerCase (userAddress (app w))) = false.
Proof. unfold is_self. intros Hne. by apply String.eqb_neq. Qed.

(** *** What the handlers write *)

Lemma cleanup_app w :
  app (cleanup w)
  = mkApp (userAddress (app w)) None (remoteStream (app w)) None None
          (currentInviteId (app w)) None None (selectedContact (app w)).
Proof.
  destruct w as [[? [?|] ? [?|] ? ? ? [?|] ?] ? ? ? ? ? ?]; reflexivity.
Qed.

Lemma cleanup_calls w : calls (cleanup w) = calls w.
Proof.
  destruct w as [[? [?|] ? [?|] ? ? ? [?|] ?] ? ? ? ? ? ?]; reflexivity.
Qed.

Lemma cleanup_pending w : pending (cleanup w) = pending w.
Proof.
  destruct w as [[? [?|] ? [?|] ? ? ? [?|] ?] ? ? ? ? ? ?]; reflexivity.
Qed.

Lemma not_elem_of_remove_handle h l : h ∉ remove_handle h l.
Proof. unfold remove_handle. rewrite list_elem_of_filter. by intros [? _]. Qed.

Lemma remove_handle_comm_elem h h' l : h ∉ l -> h ∉ remove_handle h' l.
Proof. unfold remove_handle. rewrite list_elem_of_filter. by intros ? [_ ?]. Qed.

Lemma cleanup_releases w :
  (forall s, localStream (app w) = Some s -> stream_id s ∉ liveStreams (cleanup w))
  /\ (forall c, peerConnection (app w) = Some c -> c ∉ openConnections (cleanup w))
  /\ (forall t, durationInterval (app w) = Some t -> t ∉ runningTimers (cleanup w)).
Proof.
  destruct w as [[? [?|] ? [?|] ? ? ? [?|] ?] ? ? ? ? ? ?]; simpl;
    repeat split; intros ? [= <-] || intros ? [=];
    apply not_elem_of_remove_handle.
Qed.

Lemma endCall_no_call w : truthy (currentCallId (app w)) = false -> endCall w = w.
Proof. unfold endCall. by intros ->. Qed.

Lemma cleanup_not_truthy w : truthy (currentCallId (app (cleanup w))) = false.
Proof. by rewrite cleanup_app. Qed.

(** *** Suspended methods *)

Lemma lookup_snoc_length {A} (l : list A) (x : A) : (l ++ [x]) !! length l = Some x.
Proof. induction l; [done | by simpl]. Qed.

Lemma delete_snoc_length {A} (l : list A) (x : A) : delete (length l) (l ++ [x]) = l.
Proof. induction l as [| y l IH]; [done |]. simpl. by rewrite IH. Qed.

Lemma settle_last w c t o :
  step (invoke c t w) (settle (length (pending w)) o)
  = resume t o (mkWorld (app w) (calls w ++ [c]) (pending w) (liveStreams w)
                        (openConnections w) (runningTimers w) (nextHandle w)).
Proof. simpl. by rewrite lookup_snoc_length, delete_snoc_length. Qed.

Lemma settle_last_suspended w t o :
  step (suspend t w) (settle (length (pending w)) o) = resume t o w.
Proof.
  simpl. rewrite lookup_snoc_length, delete_snoc_length. by destruct w.
Qed.

Lemma not_elem_of_snoc {A} (x y : A) (l : list A) : x ∉ l -> x <> y -> x ∉ l ++ [y].
Proof.
  intros Hl Hne Hin. apply elem_of_app in Hin as [Hin | Hin]; [done |].
  by apply list_elem_of_singleton in Hin.
Qed.

Lemma not_elem_of_delete {A} (x : A) (i : nat) (l : list A) : x ∉ l -> x ∉ delete i l.
Proof.
  intros Hl Hin. apply Hl. by eapply list_elem_of_delete_inv.
Qed.

Lemma run_invariant (P : World -> Prop) :
  (forall w ev, P w -> P (step w ev)) -> forall evs w, P w -> P (run w evs).
Proof.
  intros Hstep evs. induction evs as [| ev evs IH]; intros w HP; [done |].
  apply IH. by apply Hstep.
Qed.

(** *** Ending a call *)

Lemma endCall_issues w :
  truthy (currentCallId (app w)) = true ->
  step w click_endBtn
  = invoke (endVideoCall (currentCallId (app w))) await_endVideoCall w.
Proof. intros Hcall. simpl. unfold endCall. by rewrite Hcall. Qed.

Lemma endCall_confirmed w :
  truthy (currentCallId (app w)) = true ->
  step (step w click_endBtn) (settle (length (pending w)) Fulfilled)
  = cleanup (mkWorld (app w) (calls w ++ [endVideoCall (currentCallId (app w))])
               (pending w) (liveStreams w) (openConnections w) (runningTimers w)
               (nextHandle w)).
Proof. intros Hcall. by rewrite endCall_issues, settle_last. Qed.

(** C2, amended.  From every state with a call identifier, the end-call
    action issues one [endVideoCall] for it and changes no field.  When
    that transaction is confirmed, [cleanup] runs: [currentCallId],
    [callStartTime], [localStream], [peerConnection] and
    [durationInterval] are cleared, the stream, the connection and the
    timer they held are released, and [currentInviteId] is left as it was;
    a further end-call action is then a no-op.  When the transaction is
    rejected, no field changes.  A [CallEnded] event for the tracked call
    runs the same [cleanup]. *)
Theorem endCall_confirmed_resets w :
  truthy (currentCallId (app w)) = true ->
  let w1 := step w click_endBtn in
  let w2 := step w1 (settle (length (pending w)) Fulfilled) in
  calls w1 = calls w ++ [endVideoCall (currentCallId (app w))]
  /\ app w1 = app w
  /\ app w2 = mkApp (userAddress (app w)) None (remoteStream (app w)) None None
                    (currentInviteId (app w)) None None (selectedContact (app w))
  /\ (forall s, localStream (app w) = Some s -> stream_id s ∉ liveStreams w2)
  /\ (forall c, peerConnection (app w) = Some c -> c ∉ openConnections w2)
  /\ (forall t, durationInterval (app w) = Some t -> t ∉ runningTimers w2)
  /\ calls w2 = calls w1
  /\ pending w2 = pending w
  /\ step w2 click_endBtn = w2
  /\ app (step w1 (settle (length (pending w)) Rejected)) = app w
  /\ (forall callId duration,
        currentCallId (app w) = Some (toString callId) ->
        step w (CallEnded callId duration) = cleanup w).
Proof.
  intros Hcall w1 w2.
  assert (w1 = invoke (endVideoCall (currentCallId (app w))) await_endVideoCall w) as Hw1
    by by apply endCall_issues.
  assert (w2 = cleanup (mkWorld (app w) (calls w1) (pending w) (liveStreams w)
                          (openConnections w) (runningTimers w) (nextHandle w))) as Hw2.
  { subst w2 w1. rewrite endCall_confirmed by done. by rewrite endCall_issues. }
  pose proof (cleanup_releases
                (mkWorld (app w) (calls w1) (pending w) (liveStreams w)
                   (openConnections w) (runningTimers w) (nextHandle w)))
    as (Hstream & Hconn & Htimer).
  rewrite <- Hw2 in Hstream, Hconn, Htimer. simpl in Hstream, Hconn, Htimer.
  split; [by rewrite Hw1 |].
  split; [by rewrite Hw1 |].
  split; [by rewrite Hw2, cleanup_app |].
  split; [done |]. split; [done |]. split; [done |].
  split; [by rewrite Hw2, cleanup_calls |].
  split; [by rewrite Hw2, cleanup_pending |].
  split.
  { simpl. apply endCall_no_call. rewrite Hw2. apply cleanup_not_truthy. }
  split.
  { rewrite Hw1, settle_last. done. }
  intros callId duration Hid. simpl.
  by rewrite bool_decide_eq_true_2.
Qed.

(** C7, amended.  When the end-call action is performed twice and the
    first transaction was confirmed in between, exactly one
    [endVideoCall] is issued: the second action changes nothing.  On the
    ledger, an [endVideoCall] that follows a successful one for the same
    call fails, whoever sends it. *)
Theorem endCall_twice_after_confirmation w :
  truthy (currentCallId (app w)) = true ->
  let ended := run w [click_endBtn; settle (length (pending w)) Fulfilled] in
  run w [click_endBtn; settle (length (pending w)) Fulfilled; click_endBtn] = ended
  /\ calls ended = calls w ++ [endVideoCall (currentCallId (app w))]
  /\ length (List.filter is_endVideoCall (calls ended))
     = S (length (List.filter is_endVideoCall (calls w)))
  /\ (forall e c s s' evs e',
        Ledger.endVideoCall e c s = Ledger.Ok (s', evs) ->
        Ledger.fails (Ledger.endVideoCall e' c s')).
Proof.
  intros Hcall ended.
  assert (ended = cleanup (mkWorld (app w)
                             (calls w ++ [endVideoCall (currentCallId (app w))])
                             (pending w) (liveStreams w) (openConnections w)
                             (runningTimers w) (nextHandle w))) as Hended.
  { subst ended. unfold run. simpl foldl. by apply endCall_confirmed. }
  assert (calls ended = calls w ++ [endVideoCall (currentCallId (app w))]) as Hcalls
    by by rewrite Hended, cleanup_calls.
  split; [| split; [exact Hcalls | split]].
  - change (step ended click_endBtn = ended). simpl.
    apply endCall_no_call. rewrite Hended. apply cleanup_not_truthy.
  - rewrite Hcalls, List.filter_app, length_app. simpl. lia.
  - intros e c s s' evs e'. apply LedgerProofs.endVideoCall_not_twice.
Qed.

(** *** Contract events *)

Lemma handleCallAccepted_eq callId w :
  handleCallAccepted callId w
  = suspend await_getUserMedia
      (with_app (set_currentCallId (Some (toString callId))) w).
Proof.
  unfold handleCallAccepted, startVideoCall.
  change (currentCallId (app (with_app (set_currentCallId (Some (toString callId))) w)))
    with (Some (toString callId)).
  by rewrite toString_truthy.
Qed.

(** C4, amended.  A [CallAccepted] event whose initiator is not the local
    user (compared without regard to letter case) changes nothing.  One
    that names the local user is never treated as stale: whatever the
    state, it overwrites [currentCallId] with the event's identifier and
    starts [startVideoCall], which waits for the media devices. *)
Theorem CallAccepted_not_filtered_by_callId w from to callId :
  let w' := step w (CallAccepted from to callId) in
  (~ is_self w from -> w' = w)
  /\ (is_self w from ->
      app w' = set_currentCallId (Some (toString callId)) (app w)
      /\ currentCallId (app w') = Some (toString callId)
      /\ pending w' = pending w ++ [await_getUserMedia]
      /\ calls w' = calls w).
Proof.
  intros w'. subst w'. simpl. split.
  - intros Hother. by rewrite eqb_not_self.
  - intros Hself. rewrite eqb_self by done.
    by rewrite handleCallAccepted_eq.
Qed.

(** While no [endVideoCall] is awaited, an event other than the three
    contract events about a call and the end button leaves [currentCallId]
    and [callStartTime] as they are, and no [endVideoCall] is awaited
    afterwards. *)
Lemma call_kept_step callId start w ev :
  touches_call ev = false -> call_kept callId start w -> call_kept callId start (step w ev).
Proof.
  intros Hev (Hc & Ht & Hp). unfold call_kept.
  destruct ev; try discriminate Hev; simpl.
  - by case_match.
  - done.
  - unfold initiateCall. case_match; [done |]. simpl.
    repeat split; try done. by apply not_elem_of_snoc.
  - unfold acceptInvite. case_match; [done |]. simpl.
    repeat split; try done. by apply not_elem_of_snoc.
  - unfold declineInvite. case_match; [done |]. simpl.
    repeat split; try done. by apply not_elem_of_snoc.
  - unfold toggleMute. by case_match.
  - unfold toggleVideo. by case_match.
  - by case_match.
  - case_match; [| done]. unfold sendSignalingData. case_match; [done |]. simpl.
    repeat split; try done. by apply not_elem_of_snoc.
  - destruct (pending w !! i) as [t |] eqn:Hi; [| done].
    assert (t <> await_endVideoCall) as Hne.
    { intros ->. apply Hp. by eapply list_elem_of_lookup_2. }
    pose proof (not_elem_of_delete _ i _ Hp) as Hdel.
    destruct t, o; simpl; try done.
    repeat split; try done. by apply not_elem_of_snoc.
Qed.

Lemma call_kept_run callId start evs :
  forall w,
    Forall (fun ev => touches_call ev = false) evs ->
    call_kept callId start w -> call_kept callId start (run w evs).
Proof.
  induction evs as [| ev evs IH]; intros w Hall Hkept; [done |].
  apply Forall_cons in Hall as [Hev Hall].
  apply IH; [done |]. by apply call_kept_step.
Qed.

(** C5, amended.  When the media devices cannot be acquired, the
    [startVideoCall] begun by a [CallAccepted] event only logs: no
    [startVideoCall] transaction is issued, no peer connection is created,
    and no field changes, so [currentCallId] stays set and the coordinator
    stays in Starting.  The same holds whenever the refusal arrives, with
    other events handled in between.  And it stays so: provided no
    [endVideoCall] is awaited, every later sequence of events without a
    [CallAccepted], [CallStarted] or [CallEnded] event and without a press
    of the end button leaves [currentCallId] and [callStartTime] as they
    are. *)
Theorem media_failure_keeps_call w from to callId :
  is_self w from ->
  let w1 := step w (CallAccepted from to callId) in
  let w2 := step w1 (settle (length (pending w)) Rejected) in
  pending w1 = pending w ++ [await_getUserMedia]
  /\ app w2 = app w1
  /\ currentCallId (app w2) = Some (toString callId)
  /\ (callStartTime (app w) = None -> phase_of_fields (app w2) = Starting)
  /\ calls w2 = calls w
  /\ peerConnection (app w2) = peerConnection (app w)
  /\ openConnections w2 = openConnections w
  /\ pending w2 = pending w
  /\ (forall v i,
        pending v !! i = Some await_getUserMedia ->
        let v' := step v (settle i Rejected) in
        app v' = app v
        /\ calls v' = calls v
        /\ openConnections v' = openConnections v
        /\ pending v' = delete i (pending v))
  /\ (forall more,
        await_endVideoCall ∉ pending w ->
        Forall (fun ev => touches_call ev = false) more ->
        currentCallId (app (run w2 more)) = Some (toString callId)
        /\ callStartTime (app (run w2 more)) = callStartTime (app w)
        /\ (callStartTime (app w) = None ->
            phase_of_fields (app (run w2 more)) = Starting)).
Proof.
  intros Hself w1 w2.
  assert (w1 = suspend await_getUserMedia
                 (with_app (set_currentCallId (Some (toString callId))) w)) as Hw1.
  { subst w1. simpl. rewrite eqb_self by done. apply handleCallAccepted_eq. }
  assert (w2 = with_app (set_currentCallId (Some (toString callId))) w) as Hw2.
  { subst w2. rewrite Hw1.
    change (length (pending w))
      with (length (pending (with_app (set_currentCallId (Some (toString callId))) w))).
    by rewrite settle_last_suspended. }
  rewrite Hw1, Hw2.
  split; [done |]. split; [done |]. split; [done |].
  split.
  { intros Hnone. unfold phase_of_fields. simpl. by rewrite Hnone. }
  split; [done |]. split; [done |]. split; [done |]. split; [done |].
  split.
  { intros v i Hi. simpl. by rewrite Hi. }
  intros more Hp Hmore.
  assert (call_kept (Some (toString callId)) (callStartTime (app w))
            (run (with_app (set_currentCallId (Some (toString callId))) w) more))
    as (Hc & Ht & _).
  { by apply call_kept_run. }
  split; [done |]. split; [done |].
  intros Hnone. unfold phase_of_fields. by rewrite Hc, Ht, Hnone.
Qed.

(** C6, amended.  A [CallInvited] event addressed to the local user is
    neither queued nor rejected: whatever invitation or call is tracked, it
    overwrites [currentInviteId] with the new identifier, issues no
    contract call and leaves the other fields, [currentCallId] among them,
    as they were.  An event addressed to someone else changes nothing. *)
Theorem CallInvited_overwrites_invite w from to inviteId :
  let w' := step w (CallInvited from to inviteId) in
  (is_self w to ->
     currentInviteId (app w') = Some inviteId
     /\ app w' = set_currentInviteId (Some inviteId) (app w)
     /\ currentCallId (app w') = currentCallId (app w)
     /\ calls w' = calls w
     /\ pending w' = pending w)
  /\ (~ is_self w to -> w' = w).
Proof.
  intros w'. subst w'. simpl. split.
  - intros Hself. by rewrite eqb_self.
  - intros Hother. by rewrite eqb_not_self.
Qed.

(** *** The fields of a call *)

Lemma call_fields_inv_ext a a' :
  currentCallId a' = currentCallId a ->
  callStartTime a' = callStartTime a ->
  durationInterval a' = durationInterval a ->
  call_fields_inv a -> call_fields_inv a'.
Proof. unfold call_fields_inv. by intros -> -> ->. Qed.

Lemma call_fields_inv_cleanup w : call_fields_inv (app (cleanup w)).
Proof.
  rewrite cleanup_app. unfold call_fields_inv. simpl.
  repeat split; by intros [? ?].
Qed.

Lemma call_fields_inv_resume t o w :
  call_fields_inv (app w) -> call_fields_inv (app (resume t o w)).
Proof.
  intros Hinv.
  destruct t, o; simpl; try done; try apply call_fields_inv_cleanup;
    by apply (call_fields_inv_ext (app w)).
Qed.

Lemma call_fields_inv_step w ev :
  call_fields_inv (app w) -> call_fields_inv (app (step w ev)).
Proof.
  intros Hinv. destruct ev; simpl.
  - case_match; [| done]. by apply (call_fields_inv_ext (app w)).
  - case_match; [| done]. rewrite handleCallAccepted_eq. simpl.
    destruct Hinv as (Hstart & Htimer & _).
    repeat split; simpl; try tauto; eauto using toString_truthy.
  - case_match; [| done]. unfold call_fields_inv. simpl.
    repeat split; eauto using toString_truthy.
  - case_match; [| done]. apply call_fields_inv_cleanup.
  - by apply (call_fields_inv_ext (app w)).
  - unfold initiateCall. case_match; [done |]. by apply (call_fields_inv_ext (app w)).
  - unfold acceptInvite. case_match; [done |]. by apply (call_fields_inv_ext (app w)).
  - unfold declineInvite. case_match; [done |]. by apply (call_fields_inv_ext (app w)).
  - unfold endCall. case_match; [done |]. by apply (call_fields_inv_ext (app w)).
  - unfold toggleMute. case_match; [| done]. by apply (call_fields_inv_ext (app w)).
  - unfold toggleVideo. case_match; [| done]. by apply (call_fields_inv_ext (app w)).
  - case_match; [| done]. by apply (call_fields_inv_ext (app w)).
  - case_match; [| done]. unfold sendSignalingData.
    case_match; [done |]. by apply (call_fields_inv_ext (app w)).
  - case_match; [| done]. by apply call_fields_inv_resume.
Qed.

Lemma call_fields_inv_run w evs :
  call_fields_inv (app w) -> call_fields_inv (app (run w evs)).
Proof.
  revert w. induction evs as [| ev evs IH]; intros w Hinv; [done |].
  apply IH. by apply call_fields_inv_step.
Qed.

(** C1, amended.  The object keeps no phase.  After every sequence of
    events, [callStartTime] is set only if [currentCallId] is, the
    duration timer is set exactly when [callStartTime] is, and a set
    [currentCallId] is a non-empty string.  With the phase read off the
    fields, [currentCallId] is set exactly in Starting and Connected,
    Connected is where [callStartTime] is set, and IncomingInvite has
    [currentInviteId] set; [currentInviteId] is independent of the call
    fields and may be set in any of these phases. *)
Theorem call_fields_invariant address evs :
  let a := app (run (constructor address) evs) in
  (is_Some (currentCallId a)
     <-> phase_of_fields a = Starting \/ phase_of_fields a = Connected)
  /\ (is_Some (callStartTime a) <-> phase_of_fields a = Connected)
  /\ (is_Some (durationInterval a) <-> is_Some (callStartTime a))
  /\ (is_Some (currentCallId a) -> truthy (currentCallId a) = true)
  /\ (phase_of_fields a = IncomingInvite -> is_Some (currentInviteId a))
  /\ (phase_of_fields a = Idle ->
        currentCallId a = None /\ currentInviteId a = None /\ callStartTime a = None).
Proof.
  intros a.
  assert (call_fields_inv a) as (Hstart & Htimer & Htruthy).
  { apply call_fields_inv_run. unfold call_fields_inv. simpl.
    repeat split; by intros [? ?]. }
  split; [| split; [| split; [exact Htimer | split; [exact Htruthy |]]]].
  all: unfold phase_of_fields.
  all: destruct (currentCallId a) as [id |], (callStartTime a) as [t0 |];
    try (by destruct (Hstart (mk_is_Some _ _ eq_refl)));
    destruct (currentInviteId a) as [inv |].
  all: repeat split;
    try (intros [? | ?]); try (intros [? ?]); try intros ?;
    try discriminate; eauto.
Qed.

(** *** The claims on the concrete session *)

(** C1 as stated fails: an invitation arrives and then a call involving the
    local user starts, so both [currentInviteId] and [currentCallId] are
    set; however the phase is told from the events processed, it cannot be
    IncomingInvite and also Starting or Connected. *)
Lemma no_phase_fits_every_trace :
  ~ exists phase : list Event -> Phase,
      forall evs,
        let a := app (run (constructor me) evs) in
        (is_Some (currentCallId a) <-> phase evs = Starting \/ phase evs = Connected)
        /\ (is_Some (currentInviteId a) -> phase evs = IncomingInvite).
Proof.
  intros [phase Hphase].
  destruct (Hphase [CallInvited peer me "0x01"; CallStarted 7 peer me 1000%N])
    as [[Hcall _] Hinvite].
  assert (phase [CallInvited peer me "0x01"; CallStarted 7 peer me 1000%N]
          = IncomingInvite) as Hin.
  { apply Hinvite. vm_compute. eauto. }
  destruct Hcall as [Hs | Hc]; [vm_compute; eauto | congruence | congruence].
Qed.

(** In call 7 the coordinator reads as Connected. *)
Lemma call_fields_invariant_witness :
  phase_of_fields (app (run (constructor me) [CallStarted 7 peer "0xabcdef01" 1000%N]))
  = Connected.
Proof.
  destruct (call_fields_invariant me [CallStarted 7 peer "0xabcdef01" 1000%N])
    as (_ & Hconnected & _).
  apply Hconnected. vm_compute. eauto.
Defined.

(** C2 as stated fails: an invitation shown during call 7 is still there
    after the call was ended and the transaction confirmed; and when the
    transaction is rejected the call identifier stays. *)
Lemma endCall_leaves_invite_and_failed_call :
  currentInviteId
    (app (run in_call [CallInvited other me "0x99"; click_endBtn; settle 0 Fulfilled]))
  = Some "0x99"
  /\ currentCallId (app (run in_call [click_endBtn; settle 0 Rejected])) = Some "7".
Proof. vm_compute. split; reflexivity. Qed.

(** Ending call 7 clears the call identifier once the transaction is
    confirmed. *)
Lemma endCall_confirmed_resets_witness :
  currentCallId
    (app (step (step in_call click_endBtn) (settle (length (pending in_call)) Fulfilled)))
  = None.
Proof.
  assert (truthy (currentCallId (app in_call)) = true) as Hcall
    by (vm_compute; reflexivity).
  destruct (endCall_confirmed_resets in_call Hcall) as (_ & _ & Happ & _).
  rewrite Happ. reflexivity.
Defined.

(** C4 as stated fails: the local user is in call 7 and has issued no
    invitation; a [CallAccepted] event naming them as initiator with call
    identifier 9 replaces the tracked identifier. *)
Lemma stale_CallAccepted_overwrites_call :
  currentCallId (app in_call) = Some "7"
  /\ calls in_call = []
  /\ currentCallId (app (step in_call (CallAccepted me other 9))) = Some "9".
Proof. vm_compute. repeat split; reflexivity. Qed.

(** Written in capitals, the local user's address is still theirs: the
    event replaces the tracked call 7 by call 9. *)
Lemma CallAccepted_witness :
  currentCallId (app (step in_call (CallAccepted "0xABCDEF01" other 9))) = Some (toString 9).
Proof.
  destruct (CallAccepted_not_filtered_by_callId in_call "0xABCDEF01" other 9)
    as [_ Hself].
  apply Hself. vm_compute. reflexivity.
Defined.

(** C5 as stated fails: after the media devices were refused, the call
    identifier learnt from the [CallAccepted] event is still set. *)
Lemma media_failure_stays_in_call :
  currentCallId (app (run (constructor me) [CallAccepted me peer 7; settle 0 Rejected]))
  = Some "7"
  /\ phase_of_fields
       (app (run (constructor me) [CallAccepted me peer 7; settle 0 Rejected]))
     = Starting.
Proof. vm_compute. split; reflexivity. Qed.

(** From the initial state: the refusal of the media devices issues no
    contract call, and call 7 is still tracked after an invitation was
    shown and declined and the mute button pressed. *)
Lemma media_failure_witness :
  calls (step (step (constructor me) (CallAccepted me peer 7))
           (settle (length (pending (constructor me))) Rejected))
  = calls (constructor me)
  /\ currentCallId
       (app (run (step (step (constructor me) (CallAccepted me peer 7))
                    (settle (length (pending (constructor me))) Rejected))
               [CallInvited peer me "0x01"; click_declineInvite; settle 0 Fulfilled;
                click_muteBtn]))
     = Some (toString 7).
Proof.
  assert (is_self (constructor me) me) as Hself by reflexivity.
  destruct (media_failure_keeps_call (constructor me) me peer 7 Hself)
    as (_ & _ & _ & _ & Hcalls & _ & _ & _ & _ & Hlater).
  split; [exact Hcalls |].
  destruct (Hlater [CallInvited peer me "0x01"; click_declineInvite; settle 0 Fulfilled;
                    click_muteBtn]) as [Hcall _].
  - apply not_elem_of_nil.
  - repeat constructor.
  - exact Hcall.
Defined.

(** C6 as stated fails: a second invitation replaces the first, and
    nothing is declined on the ledger or queued. *)
Lemma second_invite_overwrites_first :
  currentInviteId (app (run (constructor me) [CallInvited peer me "0x01"])) = Some "0x01"
  /\ run (constructor me) [CallInvited peer me "0x01"; CallInvited other me "0x02"]
     = with_app (set_currentInviteId (Some "0x02")) (constructor me).
Proof. vm_compute. split; reflexivity. Qed.

(** An invitation that arrives during call 7 is shown. *)
Lemma CallInvited_witness :
  currentInviteId (app (step in_call (CallInvited other "0xABCDEF01" "0x02"))) = Some "0x02".
Proof.
  destruct (CallInvited_overwrites_invite in_call other "0xABCDEF01" "0x02")
    as [Hself _].
  apply Hself. vm_compute. reflexivity.
Defined.

(** C7 as stated fails: a second end-call action while the first
    transaction is still awaited issues [endVideoCall] again. *)
Lemma endCall_twice_issues_two_transactions :
  calls (run in_call [click_endBtn; click_endBtn])
  = [endVideoCall (Some "7"); endVideoCall (Some "7")].
Proof. vm_compute. reflexivity. Qed.

(** Ending call 7 twice, with the confirmation in between, issues one
    [endVideoCall]. *)
Lemma endCall_twice_witness :
  calls (run in_call [click_endBtn; settle (length (pending in_call)) Fulfilled;
                      click_endBtn])
  = calls in_call ++ [endVideoCall (currentCallId (app in_call))].
Proof.
  assert (truthy (currentCallId (app in_call)) = true) as Hcall
    by (vm_compute; reflexivity).
  destruct (endCall_twice_after_confirmation in_call Hcall) as (Hsame & Hcalls & _).
  rewrite Hsame. exact Hcalls.
Defined.

(** *** Local media controls *)

(** X15.  The mute and video buttons are switches.  With a local stream,
    the mute button inverts the [enabled] flag of the audio track and leaves
    the video track as it is; the video button inverts the flag of the video
    track and leaves the audio track as it is.  Neither touches anything
    else: apart from [localStream], the object and its surroundings are as
    before, so no contract call is issued and the call fields stay as they
    are, and the stream is the same stream.  Pressing one twice brings the
    state back, and the two commute.  Without a local stream they do
    nothing. *)
Theorem media_toggles_are_switches w :
  run w [click_muteBtn; click_muteBtn] = w
  /\ run w [click_videoBtn; click_videoBtn] = w
  /\ run w [click_muteBtn; click_videoBtn] = run w [click_videoBtn; click_muteBtn]
  /\ (forall s, localStream (app w) = Some s ->
        localStream (app (step w click_muteBtn))
        = Some (mkMediaStream (stream_id s) (negb (audio_enabled s)) (video_enabled s))
        /\ localStream (app (step w click_videoBtn))
           = Some (mkMediaStream (stream_id s) (audio_enabled s) (negb (video_enabled s))))
  /\ (forall ev, ev = click_muteBtn \/ ev = click_videoBtn ->
        with_app (set_localStream None) (step w ev) = with_app (set_localStream None) w
        /\ calls (step w ev) = calls w
        /\ pending (step w ev) = pending w
        /\ currentCallId (app (step w ev)) = currentCallId (app w)
        /\ currentInviteId (app (step w ev)) = currentInviteId (app w)
        /\ (localStream (app w) = None -> step w ev = w)
        /\ (forall s, localStream (app w) = Some s ->
              exists s', localStream (app (step w ev)) = Some s'
                         /\ stream_id s' = stream_id s)).
Proof.
  destruct w as [[addr [[sid audio video] |] rs pc cid iid t0 timer sel]
                   cs ps ls ocs ts nh];
    unfold run; simpl; unfold toggleMute, toggleVideo, with_app; simpl;
    rewrite ?negb_involutive.
  - split; [done |]. split; [done |]. split; [done |].
    split; [by intros s [= <-] |].
    intros ev [-> | ->]; simpl; unfold toggleMute, toggleVideo, with_app; simpl;
      repeat split; try done; intros s [= <-]; eauto.
  - split; [done |]. split; [done |]. split; [done |].
    split; [done |].
    intros ev [-> | ->]; simpl; unfold toggleMute, toggleVideo; simpl;
      repeat split; try done.
Qed.

(** *** Answering an invitation *)

Lemma answer_issues w k d :
  truthy (currentInviteId (app w)) = true ->
  step w (click_acceptInvite k d)
  = invoke (acceptCallInvitation (currentInviteId (app w)) k d)
           await_acceptCallInvitation w
  /\ step w click_declineInvite
     = invoke (declineCallInvitation (currentInviteId (app w)))
              await_declineCallInvitation w.
Proof. intros Hshown. simpl. unfold acceptInvite, declineInvite. by rewrite Hshown. Qed.

(** What follows an answer that was sent: an invitation arriving in the
    meantime is shown, the confirmation of the answer clears it, and a
    rejection changes no field. *)
Lemma answer_settles w c t from to later_id :
  t = await_acceptCallInvitation \/ t = await_declineCallInvitation ->
  is_self w to ->
  let w1 := invoke c t w in
  let w2 := step w1 (CallInvited from to later_id) in
  let w3 := step w2 (settle (length (pending w)) Fulfilled) in
  currentInviteId (app w2) = Some later_id
  /\ w3 = mkWorld (set_currentInviteId None (app w)) (calls w ++ [c]) (pending w)
            (liveStreams w) (openConnections w) (runningTimers w) (nextHandle w)
  /\ app (step w1 (settle (length (pending w)) Rejected)) = app w.
Proof.
  intros Ht Hself w1 w2 w3.
  assert (w2 = with_app (set_currentInviteId (Some later_id)) w1) as Hw2.
  { subst w2 w1. simpl. by rewrite eqb_self. }
  split; [by rewrite Hw2 |]. split.
  - subst w3. rewrite Hw2. subst w1. simpl.
    rewrite lookup_snoc_length, delete_snoc_length.
    destruct Ht as [-> | ->]; simpl; unfold hideIncomingCall, with_app; simpl;
      by destruct (app w).
  - subst w1. rewrite settle_last. by destruct Ht as [-> | ->].
Qed.

(** X16.  Accepting or declining does nothing when no invitation is shown.
    Otherwise either button sends its answer, [acceptCallInvitation] or
    [declineCallInvitation], for the invitation shown at that moment and
    changes no field; when the answer is confirmed, [hideIncomingCall]
    clears whatever invitation is shown then: one that arrived in the
    meantime is dropped and can no longer be answered.  A rejected answer
    leaves every field as it was, the invitation shown included.  Neither
    answer sets [currentCallId]: the callee learns the call from a later
    [CallStarted] event. *)
Theorem confirmed_answer_clears_the_shown_invite w k d from to later_id :
  truthy (currentInviteId (app w)) = true ->
  is_self w to ->
  let w1 := step w (click_acceptInvite k d) in
  let w2 := step w1 (CallInvited from to later_id) in
  let w3 := step w2 (settle (length (pending w)) Fulfilled) in
  let v1 := step w click_declineInvite in
  let v2 := step v1 (CallInvited from to later_id) in
  let v3 := step v2 (settle (length (pending w)) Fulfilled) in
  calls w1 = calls w ++ [acceptCallInvitation (currentInviteId (app w)) k d]
  /\ app w1 = app w
  /\ currentInviteId (app w2) = Some later_id
  /\ app w3 = set_currentInviteId None (app w)
  /\ calls w3 = calls w1
  /\ (forall k' d', step w3 (click_acceptInvite k' d') = w3)
  /\ step w3 click_declineInvite = w3
  /\ app (step w1 (settle (length (pending w)) Rejected)) = app w
  /\ (forall v k' d',
        truthy (currentInviteId (app v)) = false ->
        step v (click_acceptInvite k' d') = v /\ step v click_declineInvite = v)
  /\ calls v1 = calls w ++ [declineCallInvitation (currentInviteId (app w))]
  /\ app v1 = app w
  /\ currentInviteId (app v2) = Some later_id
  /\ app v3 = set_currentInviteId None (app w)
  /\ calls v3 = calls v1
  /\ (forall k' d', step v3 (click_acceptInvite k' d') = v3)
  /\ step v3 click_declineInvite = v3
  /\ app (step v1 (settle (length (pending w)) Rejected)) = app w.
Proof.
  intros Hshown Hself w1 w2 w3 v1 v2 v3.
  destruct (answer_issues w k d Hshown) as [Hw1 Hv1].
  destruct (answer_settles w (acceptCallInvitation (currentInviteId (app w)) k d)
              await_acceptCallInvitation from to later_id (or_introl eq_refl) Hself)
    as (Hw2 & Hw3 & Hwr).
  destruct (answer_settles w (declineCallInvitation (currentInviteId (app w)))
              await_declineCallInvitation from to later_id (or_intror eq_refl) Hself)
    as (Hv2 & Hv3 & Hvr).
  rewrite <- Hw1 in Hw2, Hw3, Hwr. rewrite <- Hv1 in Hv2, Hv3, Hvr.
  fold w1 in Hw2, Hw3, Hwr. fold w2 in Hw2, Hw3. fold w3 in Hw3.
  fold v1 in Hv2, Hv3, Hvr. fold v2 in Hv2, Hv3. fold v3 in Hv3.
  split; [subst w1; by rewrite Hw1 |]. split; [subst w1; by rewrite Hw1 |].
  split; [done |]. split; [by rewrite Hw3 |].
  split; [subst w1; by rewrite Hw3, Hw1 |].
  split; [| split; [| split; [| split]]].
  - intros k' d'. rewrite Hw3. simpl. unfold acceptInvite. simpl. done.
  - rewrite Hw3. simpl. unfold declineInvite. simpl. done.
  - done.
  - intros v k' d' Hnone. simpl. unfold acceptInvite, declineInvite.
    by rewrite Hnone.
  - split; [subst v1; by rewrite Hv1 |]. split; [subst v1; by rewrite Hv1 |].
    split; [done |]. split; [by rewrite Hv3 |].
    split; [subst v1; by rewrite Hv3, Hv1 |].
    split; [| split].
    + intros k' d'. rewrite Hv3. simpl. unfold acceptInvite. simpl. done.
    + rewrite Hv3. simpl. unfold declineInvite. simpl. done.
    + done.
Qed.

(** *** Contract events for other calls *)

(** X17.  A [CallEnded] event for a call other than the tracked one changes
    nothing, and neither does any [CallEnded] event when no call is
    tracked: identifiers are compared through their decimal rendering, which
    tells any two numbers apart. *)
Theorem CallEnded_of_another_call_is_ignored w tracked callId duration :
  currentCallId (app w) = None
  \/ (currentCallId (app w) = Some (toString tracked) /\ callId <> tracked) ->
  step w (CallEnded callId duration) = w.
Proof.
  intros Hother. simpl.
  rewrite bool_decide_eq_false_2; [done |].
  destruct Hother as [-> | [-> Hne]]; [done |].
  intros [= Heq]. apply Hne. symmetry. by apply (inj pretty) in Heq.
Qed.

(** *** Browser resources *)

(** Every event leaves the resources alone, or acts on them as [cleanup]
    does, or as [startCallTimer], or as a media capture followed by
    [initializeWebRTC]. *)
Lemma step_resources w ev :
  resources (step w ev) = resources w
  \/ resources (step w ev) = resources (cleanup w)
  \/ resources (step w ev) = resources (startCallTimer w)
  \/ resources (step w ev) = resources (initializeWebRTC (startMediaCapture_resume w)).
Proof.
  destruct ev; simpl.
  - case_match; [| by left]. by left.
  - case_match; [| by left]. rewrite handleCallAccepted_eq. by left.
  - case_match; [| by left]. right. right. by left.
  - case_match; [| by left]. right. by left.
  - by left.
  - unfold initiateCall. case_match; by left.
  - unfold acceptInvite. case_match; by left.
  - unfold declineInvite. case_match; by left.
  - unfold endCall. case_match; by left.
  - unfold toggleMute. destruct (localStream (app w)) eqn:Hs; [| by left].
    left. unfold resources. simpl. by rewrite Hs.
  - unfold toggleVideo. destruct (localStream (app w)) eqn:Hs; [| by left].
    left. unfold resources. simpl. by rewrite Hs.
  - case_match; by left.
  - case_match; [| by left]. unfold sendSignalingData. case_match; by left.
  - destruct (pending w !! i) as [t |]; [| by left].
    destruct t, o; simpl; try by left.
    + right. right. right. done.
    + right. left.
      destruct w as [[? [?|] ? [?|] ? ? ? [?|] ?] ? ? ? ? ? ?]; reflexivity.
Qed.

Lemma drawn_below_remove next h l :
  drawn_below next l -> drawn_below next (remove_handle h l).
Proof.
  intros [Hnd Hlt]. unfold remove_handle. split.
  - by apply NoDup_filter.
  - intros x Hx. apply list_elem_of_filter in Hx as [_ Hx]. by apply Hlt.
Qed.

Lemma drawn_below_succ next l : drawn_below next l -> drawn_below (Pos.succ next) l.
Proof. intros [Hnd Hlt]. split; [done |]. intros h Hh. specialize (Hlt h Hh). lia. Qed.

Lemma drawn_below_draw next l :
  drawn_below next l -> drawn_below (Pos.succ next) (l ++ [next]).
Proof.
  intros [Hnd Hlt]. split.
  - apply NoDup_app. split; [done |]. split; [| apply NoDup_singleton].
    intros x Hx Hx'. apply list_elem_of_singleton in Hx' as ->.
    specialize (Hlt _ Hx). lia.
  - intros h Hh. apply elem_of_app in Hh as [Hh | Hh].
    + specialize (Hlt h Hh). lia.
    + apply list_elem_of_singleton in Hh as ->. lia.
Qed.

Lemma handles_inv_resources w w' :
  resources w' = resources w -> handles_inv w -> handles_inv w'.
Proof.
  unfold resources, handles_inv. intros [= Hs Hc Ht -> -> -> ->].
  intros (Hstream & Hconn & Htimer & Hrest).
  split; [| split; [| split; [| done]]].
  - intros s Hs'. rewrite Hs' in Hs. simpl in Hs.
    destruct (localStream (app w)) as [s0 |]; [| done].
    injection Hs as Hs. rewrite Hs. by apply Hstream.
  - intros c Hc'. apply Hconn. congruence.
  - intros t Ht'. apply Htimer. congruence.
Qed.

Lemma handles_inv_cleanup w : handles_inv w -> handles_inv (cleanup w).
Proof.
  intros (Hstream & Hconn & Htimer & Hl & Ho & Hr).
  destruct w as [[? [?|] ? [?|] ? ? ? [?|] ?] ? ? ? ? ? ?];
    unfold handles_inv; simpl in *;
    (split; [done |]); (split; [done |]); (split; [done |]);
    (split; [first [done | by apply drawn_below_remove] |]);
    (split; first [done | by apply drawn_below_remove]).
Qed.

Lemma handles_inv_startCallTimer w : handles_inv w -> handles_inv (startCallTimer w).
Proof.
  intros (Hstream & Hconn & Htimer & Hl & Ho & Hr).
  unfold handles_inv, startCallTimer. simpl.
  split; [done |]. split; [done |].
  split; [intros t [= <-]; apply elem_of_app; right; by apply list_elem_of_singleton |].
  split; [by apply drawn_below_succ |]. split; [by apply drawn_below_succ |].
  by apply drawn_below_draw.
Qed.

Lemma handles_inv_capture w :
  handles_inv w -> handles_inv (initializeWebRTC (startMediaCapture_resume w)).
Proof.
  intros (Hstream & Hconn & Htimer & Hl & Ho & Hr).
  unfold handles_inv, initializeWebRTC, startMediaCapture_resume. simpl.
  split; [intros s [= <-]; apply elem_of_app; right; by apply list_elem_of_singleton |].
  split; [intros c [= <-]; apply elem_of_app; right; by apply list_elem_of_singleton |].
  split; [done |].
  split; [by apply drawn_below_succ, drawn_below_draw |].
  split; [by apply drawn_below_draw, drawn_below_succ |].
  by apply drawn_below_succ, drawn_below_succ.
Qed.

Lemma handles_inv_step w ev : handles_inv w -> handles_inv (step w ev).
Proof.
  intros Hinv.
  destruct (step_resources w ev) as [Hr | [Hr | [Hr | Hr]]];
    apply (handles_inv_resources _ _ Hr); auto using handles_inv_cleanup,
      handles_inv_startCallTimer, handles_inv_capture.
Qed.

Lemma handles_inv_run w evs : handles_inv w -> handles_inv (run w evs).
Proof.
  revert w. induction evs as [| ev evs IH]; intros w Hinv; [done |].
  apply IH. by apply handles_inv_step.
Qed.

Lemma handles_inv_constructor address : handles_inv (constructor address).
Proof.
  unfold handles_inv, drawn_below. simpl.
  repeat split; try done; try apply NoDup_nil_2; intros h Hh; by apply elem_of_nil in Hh.
Qed.

(** X18.  After every sequence of events the fields refer to resources that
    are still held: [localStream] to a stream whose tracks were not stopped,
    [peerConnection] to a connection that was not closed and
    [durationInterval] to a timer that was not cleared; and [cleanup]
    releases exactly what the fields held. *)
Theorem fields_refer_to_held_resources address evs :
  let w := run (constructor address) evs in
  (forall s, localStream (app w) = Some s -> stream_id s ∈ liveStreams w)
  /\ (forall c, peerConnection (app w) = Some c -> c ∈ openConnections w)
  /\ (forall t, durationInterval (app w) = Some t -> t ∈ runningTimers w)
  /\ (forall h, h ∈ liveStreams (cleanup w) <->
        h ∈ liveStreams w /\ stream_id <$> localStream (app w) <> Some h)
  /\ (forall h, h ∈ openConnections (cleanup w) <->
        h ∈ openConnections w /\ peerConnection (app w) <> Some h)
  /\ (forall h, h ∈ runningTimers (cleanup w) <->
        h ∈ runningTimers w /\ durationInterval (app w) <> Some h).
Proof.
  intros w.
  destruct (handles_inv_run (constructor address) evs (handles_inv_constructor address))
    as (Hstream & Hconn & Htimer & _).
  fold w in Hstream, Hconn, Htimer.
  split; [done |]. split; [done |]. split; [done |].
  destruct w as [[? [?|] ? [?|] ? ? ? [?|] ?] ? ? ? ? ? ?]; simpl;
    unfold remove_handle;
    repeat split; intros;
    repeat match goal with
    | Hx : _ ∈ filter _ _ |- _ => apply list_elem_of_filter in Hx as [? ?]
    | Hx : _ /\ _ |- _ => destruct Hx
    | |- _ ∈ filter _ _ => apply list_elem_of_filter; split
    end; try done; congruence.
Qed.

(** *** Resources that no field refers to *)

Lemma stray_timer_resources w w' t :
  resources w' = resources w -> stray_timer w t -> stray_timer w' t.
Proof. unfold resources, stray_timer. by intros [= _ _ -> _ _ -> ->]. Qed.

Lemma stray_stream_resources w w' h :
  resources w' = resources w -> stray_stream w h -> stray_stream w' h.
Proof.
  unfold resources, stray_stream. intros [= Hs _ _ -> _ _ ->] (Hin & Hne & Hlt).
  split; [done |]. split; [| done].
  intros s Hs' Heq. rewrite Hs' in Hs. simpl in Hs.
  destruct (localStream (app w)) as [s0 |] eqn:Hs0; [| done].
  injection Hs as Hs. apply (Hne s0); [done | congruence].
Qed.

Lemma stray_connection_resources w w' c :
  resources w' = resources w -> stray_connection w c -> stray_connection w' c.
Proof. unfold resources, stray_connection. by intros [= _ -> _ _ -> _ ->]. Qed.

Lemma elem_of_remove_handle h h' l : h ∈ l -> h' <> h -> h ∈ remove_handle h' l.
Proof. intros Hin Hne. unfold remove_handle. apply list_elem_of_filter. by split. Qed.

Lemma stray_timer_step w ev t : stray_timer w t -> stray_timer (step w ev) t.
Proof.
  intros Hstray.
  destruct (step_resources w ev) as [Hr | [Hr | [Hr | Hr]]];
    apply (stray_timer_resources _ _ _ Hr); [done | | |];
    destruct Hstray as (Hin & Hne & Hlt).
  - destruct w as [[? [?|] ? [?|] ? ? ? [?|] ?] ? ? ? ? ? ?];
      unfold stray_timer; simpl in *;
      (split; [| by split]); try done;
      (apply elem_of_remove_handle; [done | by intros ->]).
  - unfold stray_timer, startCallTimer. simpl.
    split; [apply elem_of_app; by left |]. split; [| lia].
    intros [= Heq]. lia.
  - unfold stray_timer, initializeWebRTC, startMediaCapture_resume. simpl.
    split; [done |]. split; [done | lia].
Qed.

Lemma stray_stream_step w ev h : stray_stream w h -> stray_stream (step w ev) h.
Proof.
  intros Hstray.
  destruct (step_resources w ev) as [Hr | [Hr | [Hr | Hr]]];
    apply (stray_stream_resources _ _ _ Hr); [done | | |];
    destruct Hstray as (Hin & Hne & Hlt).
  - destruct w as [[? [?|] ? [?|] ? ? ? [?|] ?] ? ? ? ? ? ?];
      unfold stray_stream; simpl in *;
      (split; [| by split]); try done;
      (apply elem_of_remove_handle; [done | by apply Hne]).
  - unfold stray_stream, startCallTimer. simpl. split; [done |]. split; [done | lia].
  - unfold stray_stream, initializeWebRTC, startMediaCapture_resume. simpl.
    split; [apply elem_of_app; by left |]. split; [| lia].
    intros s [= <-]. simpl. lia.
Qed.

Lemma stray_connection_step w ev c :
  stray_connection w c -> stray_connection (step w ev) c.
Proof.
  intros Hstray.
  destruct (step_resources w ev) as [Hr | [Hr | [Hr | Hr]]];
    apply (stray_connection_resources _ _ _ Hr); [done | | |];
    destruct Hstray as (Hin & Hne & Hlt).
  - destruct w as [[? [?|] ? [?|] ? ? ? [?|] ?] ? ? ? ? ? ?];
      unfold stray_connection; simpl in *;
      (split; [| by split]); try done;
      (apply elem_of_remove_handle; [done | by intros ->]).
  - unfold stray_connection, startCallTimer. simpl. split; [done |]. split; [done | lia].
  - unfold stray_connection, initializeWebRTC, startMediaCapture_resume. simpl.
    split; [apply elem_of_app; by left |]. split; [| lia].
    intros [= Heq]. lia.
Qed.

(** X19.  [startCallTimer] starts a new interval without clearing the one
    that runs: when a [CallStarted] event naming the local user arrives
    while a duration timer is set, that timer is overwritten in
    [durationInterval] and nothing ever clears it afterwards; it keeps
    running through every later event, [cleanup] included. *)
Theorem overwritten_timer_is_never_cleared address evs callId initiator recipient now t more :
  let w := run (constructor address) evs in
  durationInterval (app w) = Some t ->
  is_self w initiator \/ is_self w recipient ->
  let w' := run (step w (CallStarted callId initiator recipient now)) more in
  t ∈ runningTimers w'
  /\ durationInterval (app w') <> Some t
  /\ t ∈ runningTimers (cleanup w').
Proof.
  intros w Ht Hself w'.
  destruct (handles_inv_run (constructor address) evs (handles_inv_constructor address))
    as (_ & _ & Htimer & _ & _ & [_ Hlt]).
  fold w in Htimer, Hlt.
  assert (stray_timer (step w (CallStarted callId initiator recipient now)) t) as Hs.
  { simpl.
    assert (String.eqb (toLowerCase initiator) (toLowerCase (userAddress (app w)))
            || String.eqb (toLowerCase recipient) (toLowerCase (userAddress (app w)))
            = true) as ->.
    { apply orb_true_iff. destruct Hself; [left | right]; by apply eqb_self. }
    pose proof (Hlt t (Htimer t Ht)) as Hbelow.
    unfold stray_timer, handleCallStarted, startCallTimer. simpl.
    split; [apply elem_of_app; left; by apply Htimer |]. split; [| lia].
    intros [= Heq]. lia. }
  assert (stray_timer w' t) as (Hin & Hne & Hlt').
  { apply (run_invariant (fun v => stray_timer v t)); [| done].
    intros v ev. apply stray_timer_step. }
  split; [done |]. split; [done |].
  destruct w' as [[? [?|] ? [?|] ? ? ? [?|] ?] ? ? ? ? ? ?]; simpl in *;
    try done; (apply elem_of_remove_handle; [done | by intros ->]).
Qed.

(** X20.  [startMediaCapture] and [initializeWebRTC] overwrite
    [localStream] and [peerConnection] without releasing what they held:
    when media arrives for a second [startVideoCall], the stream captured
    before is never stopped and the connection opened before is never
    closed by any later event. *)
Theorem overwritten_media_is_never_released address evs i more :
  let w := run (constructor address) evs in
  pending w !! i = Some await_getUserMedia ->
  let w' := run (step w (settle i Fulfilled)) more in
  (forall s, localStream (app w) = Some s ->
     stream_id s ∈ liveStreams w'
     /\ forall s', localStream (app w') = Some s' -> stream_id s' <> stream_id s)
  /\ (forall c, peerConnection (app w) = Some c ->
        c ∈ openConnections w' /\ peerConnection (app w') <> Some c).
Proof.
  intros w Hi w'.
  destruct (handles_inv_run (constructor address) evs (handles_inv_constructor address))
    as (Hstream & Hconn & _ & [_ Hlt] & [_ Hlt'] & _).
  fold w in Hstream, Hconn, Hlt, Hlt'.
  split.
  - intros s Hs.
    assert (stray_stream (step w (settle i Fulfilled)) (stream_id s)) as Hstray.
    { simpl. rewrite Hi. simpl.
      pose proof (Hlt _ (Hstream s Hs)) as Hbelow.
      unfold stray_stream, invoke, initializeWebRTC, startMediaCapture_resume. simpl.
      split; [apply elem_of_app; left; by apply Hstream |]. split; [| lia].
      intros s' [= <-]. simpl. lia. }
    assert (stray_stream w' (stream_id s)) as (Hin & Hne & _).
    { apply (run_invariant (fun v => stray_stream v (stream_id s))); [| done].
      intros v ev. apply stray_stream_step. }
    done.
  - intros c Hc.
    assert (stray_connection (step w (settle i Fulfilled)) c) as Hstray.
    { simpl. rewrite Hi. simpl.
      pose proof (Hlt' _ (Hconn c Hc)) as Hbelow.
      unfold stray_connection, invoke, initializeWebRTC, startMediaCapture_resume. simpl.
      split; [apply elem_of_app; left; by apply Hconn |]. split; [| lia].
      intros [= Heq]. lia. }
    assert (stray_connection w' c) as (Hin & Hne & _).
    { apply (run_invariant (fun v => stray_connection v c)); [| done].
      intros v ev. apply stray_connection_step. }
    done.
Qed.

(** *** The callee's side *)

Lemma no_media_cleanup address w : no_media address w -> no_media address (cleanup w).
Proof.
  intros (Ha & Hs & Hc & Hl & Ho & Hp & Hq & Hcalls).
  destruct w as [[? ? ? ? ? ? ? [?|] ?] ? ? ? ? ? ?]; simpl in *; subst; done.
Qed.

Lemma no_media_step address w ev :
  accepted_for address ev = false -> no_media address w -> no_media address (step w ev).
Proof.
  intros Hev Hno.
  pose proof Hno as (Ha & Hs & Hc & Hl & Ho & Hp & Hq & Hcalls).
  destruct ev; simpl.
  - case_match; [| done]. done.
  - simpl in Hev. by rewrite Ha, Hev.
  - case_match; [| done]. done.
  - case_match; [| done]. by apply no_media_cleanup.
  - done.
  - unfold initiateCall. case_match; [done |].
    unfold no_media. simpl. repeat split; try done;
      try (by apply not_elem_of_snoc); by apply Forall_app_2; [| repeat constructor].
  - unfold acceptInvite. case_match; [done |].
    unfold no_media. simpl. repeat split; try done;
      try (by apply not_elem_of_snoc); by apply Forall_app_2; [| repeat constructor].
  - unfold declineInvite. case_match; [done |].
    unfold no_media. simpl. repeat split; try done;
      try (by apply not_elem_of_snoc); by apply Forall_app_2; [| repeat constructor].
  - unfold endCall. case_match; [done |].
    unfold no_media. simpl. repeat split; try done;
      try (by apply not_elem_of_snoc); by apply Forall_app_2; [| repeat constructor].
  - unfold toggleMute. by rewrite Hs.
  - unfold toggleVideo. by rewrite Hs.
  - rewrite Ho. by rewrite bool_decide_eq_false_2 by apply not_elem_of_nil.
  - rewrite Ho. by rewrite bool_decide_eq_false_2 by apply not_elem_of_nil.
  - destruct (pending w !! i) as [t |] eqn:Hi; [| done].
    assert (no_media address
              (mkWorld (app w) (calls w) (delete i (pending w)) (liveStreams w)
                 (openConnections w) (runningTimers w) (nextHandle w))) as Hdel.
    { unfold no_media. simpl. repeat split; try done; by apply not_elem_of_delete. }
    assert (t <> await_getUserMedia) as Hne.
    { intros ->. apply Hp. by eapply list_elem_of_lookup_2. }
    destruct t, o; simpl; try done; by apply no_media_cleanup.
Qed.

(** X21.  Media is captured only on the initiator's side.  As long as no
    [CallAccepted] event naming the local user as initiator is let through,
    and whatever else happens (invitations accepted, [CallStarted] and
    [CallEnded] events, button presses, settled promises), the object never
    asks for the camera, never holds a stream or a peer connection, and
    never calls [startVideoCall]. *)
Theorem callee_never_captures_media address evs :
  Forall (fun ev => accepted_for address ev = false) evs ->
  let w := run (constructor address) evs in
  localStream (app w) = None
  /\ peerConnection (app w) = None
  /\ liveStreams w = []
  /\ openConnections w = []
  /\ (await_getUserMedia ∉ pending w)
  /\ Forall (fun c => is_startVideoCall c = false) (calls w).
Proof.
  intros Hall w.
  assert (forall evs v,
            Forall (fun ev => accepted_for address ev = false) evs ->
            no_media address v -> no_media address (run v evs)) as Hrun.
  { clear. intros evs. induction evs as [| ev evs IH]; intros v Hall Hv; [done |].
    apply Forall_cons in Hall as [Hev Hall].
    apply IH; [done | by apply no_media_step]. }
  assert (no_media address (constructor address)) as Hinit.
  { unfold no_media. simpl. repeat split; try done; apply not_elem_of_nil. }
  destruct (Hrun evs _ Hall Hinit) as (_ & Hs & Hc & Hl & Ho & Hp & _ & Hcalls).
  done.
Qed.

(** *** The arguments of the contract calls *)

Lemma calls_step w ev :
  exists more, calls (step w ev) = calls w ++ more
               /\ Forall (fun c => has_arguments c = true) more.
Proof.
  assert (exists more, calls w = calls w ++ more
                       /\ Forall (fun c => has_arguments c = true) more) as Hsame.
  { exists []. by rewrite app_nil_r. }
  destruct ev; simpl.
  - by case_match.
  - case_match; [| done]. by rewrite handleCallAccepted_eq.
  - by case_match.
  - case_match; [| done]. by rewrite cleanup_calls.
  - done.
  - unfold initiateCall. destruct (truthy _) eqn:Ht; simpl; [| done].
    eexists. split; [reflexivity |]. by repeat constructor.
  - unfold acceptInvite. destruct (truthy _) eqn:Ht; simpl; [| done].
    eexists. split; [reflexivity |]. by repeat constructor.
  - unfold declineInvite. destruct (truthy _) eqn:Ht; simpl; [| done].
    eexists. split; [reflexivity |]. by repeat constructor.
  - unfold endCall. destruct (truthy _) eqn:Ht; simpl; [| done].
    eexists. split; [reflexivity |]. by repeat constructor.
  - unfold toggleMute. by case_match.
  - unfold toggleVideo. by case_match.
  - by case_match.
  - case_match; [| done]. unfold sendSignalingData.
    destruct (truthy _) eqn:Ht; simpl; [| done].
    eexists. split; [reflexivity |]. by repeat constructor.
  - destruct (pending w !! i) as [t |]; [| done].
    destruct t, o; cbn [resume]; rewrite ?cleanup_calls; simpl; try done.
    eexists. split; [reflexivity |]. by repeat constructor.
Qed.

(** X22.  Contract calls are only ever added to those issued, and every one
    the object issues carries the identifier or address it is about: an
    invitation a selected contact, an answer the shown invitation, an end or
    a signal the tracked call.  Only [startVideoCall], which reads
    [currentCallId] again after waiting for the media, is not covered. *)
Theorem contract_calls_carry_their_arguments address evs :
  let w := run (constructor address) evs in
  Forall (fun c => has_arguments c = true) (calls w)
  /\ forall more, calls w `prefix_of` calls (run w more).
Proof.
  intros w. split.
  - apply (run_invariant (fun v => Forall (fun c => has_arguments c = true) (calls v)));
      [| by constructor].
    intros v ev Hv. destruct (calls_step v ev) as (more & -> & Hmore).
    by apply Forall_app_2.
  - intros more. generalize w. clear.
    induction more as [| ev more IH]; intros w; [done |].
    etrans; [| apply IH].
    destruct (calls_step w ev) as (added & -> & _). by apply prefix_app_r.
Qed.

Lemma cleanup_nextHandle w : nextHandle (cleanup w) = nextHandle w.
Proof.
  destruct w as [[? [?|] ? [?|] ? ? ? [?|] ?] ? ? ? ? ? ?]; reflexivity.
Qed.

(** X23.  When the call ends while the media devices are still being
    waited for, the media that arrives afterwards is captured all the same:
    a stream is held and a peer connection is open although no call is
    tracked, [startVideoCall] is called with [null], and the end button,
    which does nothing without a tracked call, cannot release them. *)
Theorem media_arriving_after_the_call_ended w from to callId duration :
  is_self w from ->
  let w' := run w [CallAccepted from to callId; CallEnded callId duration;
                   settle (length (pending w)) Fulfilled] in
  currentCallId (app w') = None
  /\ localStream (app w') = Some (mkMediaStream (nextHandle w) true true)
  /\ nextHandle w ∈ liveStreams w'
  /\ peerConnection (app w') = Some (Pos.succ (nextHandle w))
  /\ Pos.succ (nextHandle w) ∈ openConnections w'
  /\ calls w' = calls w ++ [startVideoCall_tx None]
  /\ step w' click_endBtn = w'.
Proof.
  intros Hself w'.
  assert (w' = startVideoCall_resume Fulfilled
                 (cleanup (with_app (set_currentCallId (Some (toString callId))) w)))
    as Hw'.
  { subst w'. unfold run. cbn [foldl].
    assert (step w (CallAccepted from to callId)
            = suspend await_getUserMedia
                (with_app (set_currentCallId (Some (toString callId))) w)) as ->.
    { simpl. rewrite eqb_self by done. apply handleCallAccepted_eq. }
    assert (step (suspend await_getUserMedia
                    (with_app (set_currentCallId (Some (toString callId))) w))
                 (CallEnded callId duration)
            = suspend await_getUserMedia
                (cleanup (with_app (set_currentCallId (Some (toString callId))) w))) as ->.
    { simpl. rewrite bool_decide_eq_true_2 by done.
      destruct w as [[? [?|] ? [?|] ? ? ? [?|] ?] ? ? ? ? ? ?]; reflexivity. }
    replace (length (pending w))
      with (length (pending (cleanup (with_app
                                        (set_currentCallId (Some (toString callId))) w))))
      by by rewrite cleanup_pending.
    by rewrite settle_last_suspended. }
  pose proof (cleanup_app (with_app (set_currentCallId (Some (toString callId))) w))
    as Happ.
  pose proof (cleanup_calls (with_app (set_currentCallId (Some (toString callId))) w))
    as Hcalls.
  pose proof (cleanup_nextHandle (with_app (set_currentCallId (Some (toString callId))) w))
    as Hnext.
  remember (cleanup (with_app (set_currentCallId (Some (toString callId))) w)) as v.
  cbn [with_app app calls nextHandle] in Happ, Hcalls, Hnext.
  rewrite Hw'.
  unfold startVideoCall_resume, initializeWebRTC, startMediaCapture_resume, invoke.
  cbn [app calls pending liveStreams openConnections runningTimers nextHandle
       set_localStream set_peerConnection currentCallId localStream peerConnection].
  rewrite Happ, Hcalls, Hnext.
  cbn [currentCallId localStream peerConnection].
  split; [done |]. split; [done |].
  split; [apply elem_of_app; right; by apply list_elem_of_singleton |].
  split; [done |].
  split; [apply elem_of_app; right; by apply list_elem_of_singleton |].
  split; [done |].
  cbn [step]. unfold endCall.
  cbn [app currentCallId set_peerConnection set_localStream truthy negb].
  reflexivity.
Qed.

(** *** Signalling *)

(** X24.  A local ICE candidate is signalled only when its connection is
    open, the candidate is not the end-of-candidates marker and a call is
    tracked; then exactly one [updateSignalingData] for the tracked call is
    issued and no field changes, whether or not the transaction succeeds.
    In every other case the event changes nothing; in particular the
    connection that [cleanup] closed signals nothing any more. *)
Theorem candidates_are_signalled_only_in_a_call w c candidate data :
  let w' := step w (onicecandidate c candidate data) in
  (c ∈ openConnections w -> candidate = true -> truthy (currentCallId (app w)) = true ->
     calls w' = calls w ++ [updateSignalingData (currentCallId (app w)) data]
     /\ app w' = app w
     /\ forall o, app (step w' (settle (length (pending w)) o)) = app w
                  /\ calls (step w' (settle (length (pending w)) o)) = calls w')
  /\ (c ∉ openConnections w \/ candidate = false
      \/ truthy (currentCallId (app w)) = false -> w' = w)
  /\ (peerConnection (app w) = Some c ->
      step (cleanup w) (onicecandidate c candidate data) = cleanup w).
Proof.
  intros w'. subst w'. split; [| split].
  - intros Hopen -> Hcall. simpl.
    rewrite bool_decide_eq_true_2 by done. simpl.
    unfold sendSignalingData. rewrite Hcall. simpl.
    split; [done |]. split; [done |].
    intros o. rewrite lookup_snoc_length, delete_snoc_length. by destruct o.
  - intros [Hclosed | [-> | Hnone]]; simpl.
    + by rewrite bool_decide_eq_false_2.
    + by rewrite andb_false_r.
    + case_match; [| done]. unfold sendSignalingData. by rewrite Hnone.
  - intros Hc. simpl.
    destruct (cleanup_releases w) as (_ & Hconn & _).
    by rewrite bool_decide_eq_false_2 by by apply Hconn.
Qed.

(** *** Placing a call *)

(** X25.  Placing a call leaves no trace in the object.  Without a selected
    contact nothing is sent.  With one, [inviteToCall] is issued for the
    contact selected last, and neither sending it nor its confirmation or
    rejection changes any field: the object keeps no record of an
    invitation it sent. *)
Theorem placing_a_call_leaves_no_trace w inviteKey :
  let w1 := step w (click_callBtn inviteKey) in
  (truthy (selectedContact (app w)) = false -> w1 = w)
  /\ (truthy (selectedContact (app w)) = true ->
      calls w1 = calls w ++ [inviteToCall (selectedContact (app w)) inviteKey]
      /\ app w1 = app w
      /\ forall o, app (step w1 (settle (length (pending w)) o)) = app w
                   /\ calls (step w1 (settle (length (pending w)) o)) = calls w1
                   /\ pending (step w1 (settle (length (pending w)) o)) = pending w)
  /\ (forall a b key,
        calls (run w [click_contact a; click_contact b; click_callBtn key])
        = calls w ++ (if truthy (Some b) then [inviteToCall (Some b) key] else [])).
Proof.
  intros w1. subst w1. split; [| split].
  - intros Hnone. simpl. unfold initiateCall. by rewrite Hnone.
  - intros Hsel. simpl. unfold initiateCall. rewrite Hsel. simpl.
    split; [done |]. split; [done |].
    intros o. rewrite lookup_snoc_length, delete_snoc_length. by destruct o.
  - intros a b key. unfold run. simpl. unfold initiateCall. simpl.
    destruct b; simpl; [by rewrite app_nil_r | done].
Qed.

(** *** The call timer *)

Lemma two_digits k :
  (k < 100)%nat -> String.length (padStart2 (pretty (Z.of_nat k))) = 2%nat.
Proof.
  intros Hk.
  assert (forallb (fun k => Nat.eqb (String.length (padStart2 (pretty (Z.of_nat k)))) 2)
            (seq 0 100) = true) as Hall by (vm_compute; reflexivity).
  rewrite forallb_forall in Hall.
  apply Nat.eqb_eq, Hall, in_seq. lia.
Qed.

Lemma pretty_positive_nonempty (p : positive) :
  exists c r, pretty p = String c r.
Proof.
  pose proof (toString_truthy (Npos p)) as Ht. unfold toString in Ht. simpl in Ht.
  change (pretty (N.pos p)) with (pretty p) in Ht.
  destruct (pretty p) as [| c r]; [discriminate | eauto].
Qed.

(** X26.  The call timer shows minutes and seconds since [callStartTime]:
    for a start time that is set and not in the future, the text is the
    minutes, a colon and the seconds, the seconds always two digits between
    00 and 59, the minutes two digits below a hundred minutes and more
    digits beyond, and minutes times sixty plus seconds is the number of
    whole seconds elapsed.  Nothing is shown while [callStartTime] is null
    or zero.  If the clock reads earlier than the start time, the text
    starts with a minus sign. *)
Theorem call_timer_shows_minutes_and_seconds a now :
  (callStartTime a = None \/ callStartTime a = Some 0%N -> callDuration_text a now = None)
  /\ (forall start,
        callStartTime a = Some (Npos start) ->
        (Zpos start <= now ->
           exists m sec,
             0 <= m /\ 0 <= sec < 60
             /\ m * 60 + sec = (now - Zpos start) / 1000
             /\ callDuration_text a now
                = Some (padStart2 (pretty m) +:+ ":" +:+ padStart2 (pretty sec))
             /\ String.length (padStart2 (pretty sec)) = 2%nat
             /\ (m < 100 -> String.length (padStart2 (pretty m)) = 2%nat))
        /\ (now < Zpos start ->
            exists rest, callDuration_text a now = Some (String "-" rest))).
Proof.
  split.
  - unfold callDuration_text. by intros [-> | ->].
  - intros start Hstart. unfold callDuration_text. rewrite Hstart. split.
    + intros Hle.
      set (elapsed := (now - Z.pos start) / 1000).
      assert (0 <= elapsed) as Hpos by (apply Z.div_pos; lia).
      exists (elapsed / 60), (Z.rem elapsed 60).
      rewrite Z.rem_mod_nonneg by lia.
      pose proof (Z.mod_pos_bound elapsed 60 ltac:(lia)) as Hsec.
      pose proof (Z.div_mod elapsed 60 ltac:(lia)) as Hdiv.
      assert (0 <= elapsed / 60) as Hm by (apply Z.div_pos; lia).
      split; [done |]. split; [done |]. split; [lia |]. split; [done |].
      split.
      * replace (elapsed `mod` 60) with (Z.of_nat (Z.to_nat (elapsed `mod` 60))) by lia.
        apply two_digits. lia.
      * intros Hlt.
        replace (elapsed / 60) with (Z.of_nat (Z.to_nat (elapsed / 60))) by lia.
        apply two_digits. lia.
    + intros Hlt.
      set (elapsed := (now - Z.pos start) / 1000).
      assert (elapsed < 0) as Hneg.
      { subst elapsed. apply Z.div_lt_upper_bound; lia. }
      assert (elapsed / 60 < 0) as Hm.
      { apply Z.div_lt_upper_bound; lia. }
      destruct (elapsed / 60) as [| p | p] eqn:Hq; [lia | lia |].
      destruct (pretty_positive_nonempty p) as (c & r & Hp).
      unfold pretty at 1, pretty_Z. rewrite Hp. simpl. eauto.
Qed.

(** *** The further properties on the concrete session *)

(** An invitation that arrives while the answer to the first is awaited is
    gone once that answer is confirmed. *)
Lemma confirmed_answer_witness :
  app (step (step (step invited (click_acceptInvite 11 12))
               (CallInvited other me "0x02"))
         (settle (length (pending invited)) Fulfilled))
  = set_currentInviteId None (app invited)
  /\ app (step (step (step invited click_declineInvite)
                  (CallInvited other me "0x02"))
            (settle (length (pending invited)) Fulfilled))
     = set_currentInviteId None (app invited).
Proof.
  assert (truthy (currentInviteId (app invited)) = true) as Hshown
    by (vm_compute; reflexivity).
  assert (is_self invited me) as Hself by reflexivity.
  destruct (confirmed_answer_clears_the_shown_invite invited 11 12 other me "0x02"
              Hshown Hself)
    as (_ & _ & _ & Haccept & _ & _ & _ & _ & _ & _ & _ & _ & Hdecline & _).
  split; [exact Haccept | exact Hdecline].
Defined.

(** In call 7, the end of call 8 is ignored. *)
Lemma CallEnded_of_another_call_witness : step in_call (CallEnded 8 30) = in_call.
Proof.
  apply (CallEnded_of_another_call_is_ignored in_call 7 8 30).
  right. split; [vm_compute; reflexivity | discriminate].
Defined.

(** The timer of call 7 still runs after call 8 has started and ended. *)
Lemma overwritten_timer_witness :
  1%positive
  ∈ runningTimers
      (run (step (run (constructor me) [CallStarted 7 peer "0xabcdef01" 1000%N])
              (CallStarted 8 peer me 2000%N))
         [CallEnded 8 5]).
Proof.
  assert (durationInterval
            (app (run (constructor me) [CallStarted 7 peer "0xabcdef01" 1000%N]))
          = Some 1%positive) as Ht by (vm_compute; reflexivity).
  destruct (overwritten_timer_is_never_cleared me
              [CallStarted 7 peer "0xabcdef01" 1000%N] 8 peer me 2000%N 1%positive
              [CallEnded 8 5] Ht) as (Hin & _).
  - right. reflexivity.
  - exact Hin.
Defined.

(** The stream captured for the first acceptance is still live after the
    second capture and the end of the call. *)
Lemma overwritten_media_witness :
  1%positive
  ∈ liveStreams
      (run (step (run (constructor me) accepted_twice) (settle 1 Fulfilled))
         [CallEnded 7 60]).
Proof.
  assert (pending (run (constructor me) accepted_twice) !! 1%nat
          = Some await_getUserMedia) as Hi by (vm_compute; reflexivity).
  destruct (overwritten_media_is_never_released me accepted_twice 1 [CallEnded 7 60] Hi)
    as [Hstream _].
  assert (localStream (app (run (constructor me) accepted_twice))
          = Some (mkMediaStream 1 true true)) as Hs by (vm_compute; reflexivity).
  destruct (Hstream _ Hs) as [Hin _]. exact Hin.
Defined.

(** Through a whole call on the callee's side no stream is captured. *)
Lemma callee_witness :
  localStream (app (run (constructor me) callee_session)) = None.
Proof.
  assert (Forall (fun ev => accepted_for me ev = false) callee_session) as Hall
    by (repeat constructor).
  destruct (callee_never_captures_media me callee_session Hall) as (Hs & _).
  exact Hs.
Defined.

(** From the initial state: the call ends before the camera is granted. *)
Lemma media_after_the_call_ended_witness :
  calls (run (constructor me)
           [CallAccepted me peer 7; CallEnded 7 0;
            settle (length (pending (constructor me))) Fulfilled])
  = calls (constructor me) ++ [startVideoCall_tx None].
Proof.
  assert (is_self (constructor me) me) as Hself by reflexivity.
  destruct (media_arriving_after_the_call_ended (constructor me) me peer 7 0 Hself)
    as (_ & _ & _ & _ & _ & Hcalls & _).
  exact Hcalls.
Defined.

End CoordinatorProofs.
